(** * SHARP Studio GUI: orchestration layer of [sharp/gui/app.py]

    A shallow embedding of the stateful core of the FastAPI application:
    the predictor cache, the output-root registry, the path gateway, the
    content-addressed checkpoint store and the per-request pipeline
    [process_inference].  Python dictionaries and sets are stdpp finite
    maps and sets, exceptions are an explicit result type, and the
    process state (file system, cache, instrumentation trace) is threaded
    through a small state-and-exception monad. *)

From stdpp Require Import gmap strings list fin_maps pretty.
From Stdlib Require Import Ascii.
From Stdlib.Strings Require Import Byte.

(* ================================================================== *)
(** * Part I: the embedding                                            *)
(* ================================================================== *)

(** ** Exceptions and results *)

(** The exception classes the code raises or catches by name;
    [ValueError] stands for the class and its subclasses, which
    [except ValueError] catches alike.  Anything else (OSError,
    TypeError, EOFError, a RuntimeError out of the model code, ...) is
    [OtherError]: no handler of [app.py] catches it on the paths
    modelled here, so it reaches the framework as an internal failure. *)
Inductive exn :=
  | HTTPException (status_code : nat) (detail : string)
  | ValueError (msg : string)
  | OtherError (what : string).

Inductive result (A : Type) :=
  | Ok (a : A)
  | Raise (e : exn).
Arguments Ok {A} a.
Arguments Raise {A} e.

Definition is_ok {A} (r : result A) : bool :=
  match r with Ok _ => true | Raise _ => false end.

(** ** Strings *)

Module Str.

(** [s.split(sep)] for a one-character separator. *)
Fixpoint split_on (sep : ascii) (s : string) : list string :=
  match s with
  | "" => [""]
  | String c s' =>
      if Ascii.eqb c sep then "" :: split_on sep s'
      else match split_on sep s' with
           | [] => [String c ""]
           | w :: ws => String c w :: ws
           end
  end.

(** [s.replace(a, b)] for single characters. *)
Fixpoint replace_char (a b : ascii) (s : string) : string :=
  match s with
  | "" => ""
  | String c s' => String (if Ascii.eqb c a then b else c) (replace_char a b s')
  end.

(** ["".join(ch for ch in s if keep(ch))]. *)
Fixpoint filter_chars (keep : ascii → bool) (s : string) : string :=
  match s with
  | "" => ""
  | String c s' =>
      if keep c then String c (filter_chars keep s') else filter_chars keep s'
  end.

Fixpoint take (n : nat) (s : string) : string :=
  match n, s with
  | S n', String c s' => String c (take n' s')
  | _, _ => ""
  end.

Fixpoint drop (n : nat) (s : string) : string :=
  match n, s with
  | S n', String _ s' => drop n' s'
  | _, _ => s
  end.

(** [s.rfind(ch)]: index of the last occurrence, [None] for Python's -1. *)
Fixpoint rfind (ch : ascii) (s : string) : option nat :=
  match s with
  | "" => None
  | String c s' =>
      match rfind ch s' with
      | Some i => Some (S i)
      | None => if Ascii.eqb c ch then Some 0 else None
      end
  end.

Fixpoint mem_char (ch : ascii) (s : string) : bool :=
  match s with
  | "" => false
  | String c s' => Ascii.eqb c ch || mem_char ch s'
  end.

(** [ch.isalnum()] on the ASCII range (file names are modelled as ASCII
    strings; Python additionally accepts non-ASCII letters and digits). *)
Definition isalnum (c : ascii) : bool :=
  let n := nat_of_ascii c in
  ((48 <=? n) && (n <=? 57)) || ((65 <=? n) && (n <=? 90))
  || ((97 <=? n) && (n <=? 122)).

(** [f"{n:02d}"]: decimal, zero-padded to width two. *)
Definition fmt_02d (n : nat) : string :=
  if n <? 10 then "0" +:+ pretty n else pretty n.

Definition is_digit (c : ascii) : bool :=
  let n := nat_of_ascii c in (48 <=? n) && (n <=? 57).

(** Lower-case hexadecimal digits, as [bytes.hex()] and [hexdigest()]
    print them. *)
Definition is_hex_digit (c : ascii) : bool :=
  let n := nat_of_ascii c in
  ((48 <=? n) && (n <=? 57)) || ((97 <=? n) && (n <=? 102)).

Definition hex_digit (k : nat) : ascii :=
  default "f"%char
    (["0"; "1"; "2"; "3"; "4"; "5"; "6"; "7"; "8"; "9";
      "a"; "b"; "c"; "d"; "e"; "f"]%char !! k).

Definition hex_of_byte (b : byte) : string :=
  let n := Byte.to_nat b in
  String (hex_digit (n / 16)) (String (hex_digit (n mod 16)) "").

Fixpoint hex_of_bytes (bs : list byte) : string :=
  match bs with
  | [] => ""
  | b :: bs' => hex_of_byte b +:+ hex_of_bytes bs'
  end.

End Str.

(** ** Paths

    Every [Path] the program touches is absolute: the output root is
    normalised with [resolve()] at start-up and all other paths are built
    from it with the [/] operator.  A path is the list of its components
    below the file-system root; [".."] components stay in the list until
    the path is resolved. *)

Definition path := list string.

Module Path.

(** Components of a path string as [pathlib] parses it on POSIX: split
    on [/], empty and ["."] components dropped, [".."] kept. *)
Definition parse_parts (s : string) : list string :=
  filter (λ c, c ≠ "" ∧ c ≠ ".") (Str.split_on "/"%char s).

Definition is_absolute_str (s : string) : bool :=
  match s with
  | String c _ => Ascii.eqb c "/"%char
  | "" => false
  end.

(** [p / s]: an absolute right operand replaces the left one. *)
Definition joinpath (p : path) (s : string) : path :=
  if is_absolute_str s then parse_parts s else p ++ parse_parts s.

(** [str(p)]. *)
Definition str (p : path) : string :=
  match p with
  | [] => "/"
  | _ => foldr (λ c acc, "/" +:+ c +:+ acc) "" p
  end.

(** [p.name]: the final component, [""] for the root. *)
Definition name (p : list string) : string := default "" (last p).

(** [Path(s).name] for an arbitrary (possibly relative) path string. *)
Definition name_of_str (s : string) : string := name (parse_parts s).

(** [PurePath.suffix] and [PurePath.stem] of a final component:
    the split is at the last dot unless that dot is the first or the
    last character. *)
Definition split_index (nm : string) : option nat :=
  match Str.rfind "."%char nm with
  | Some i => if (0 <? i) && (i <? String.length nm - 1) then Some i else None
  | None => None
  end.

Definition suffix (nm : string) : string :=
  match split_index nm with
  | Some i => Str.drop i nm
  | None => ""
  end.

Definition stem (nm : string) : string :=
  match split_index nm with
  | Some i => Str.take i nm
  | None => nm
  end.

(** [p.with_suffix(sfx)] on a path with a non-empty name. *)
Definition with_suffix (p : path) (sfx : string) : path :=
  match reverse p with
  | [] => p
  | nm :: rest => reverse rest ++ [stem nm +:+ sfx]
  end.

(** [self.is_relative_to(other)]: [other] is [self] or one of its
    parents, compared component by component. *)
Fixpoint is_relative_to (self other : path) : bool :=
  match other, self with
  | [], _ => true
  | o :: os, s :: ss => bool_decide (o = s) && is_relative_to ss os
  | _ :: _, [] => false
  end.

(** Canonical form on a file system without symbolic links: what
    [Path.resolve()] computes there for an absolute path.  [".."] at
    the root stays at the root. *)
Definition norm_step (stack : list string) (c : string) : list string :=
  if decide (c = "..") then tail stack
  else if decide (c = "" ∨ c = ".") then stack
  else c :: stack.

Definition normpath (p : path) : path := reverse (foldl norm_step [] p).

End Path.

Notation "p </> s" := (Path.joinpath p s) (at level 40, left associativity).

(** ** The path gateway *)

Section PathGateway.
(** [Path.resolve()]: the canonical form of a path as the operating
    system reports it (symbolic links followed, [".."] removed).  It is
    taken as total: a symbolic-link loop, on which [resolve()] raises, is
    outside the model. *)
Variable resolve : path → path.

Definition ensure_within (root candidate : path) : result path :=
  let resolved_root := resolve root in
  let resolved_candidate := resolve candidate in
  if negb (Path.is_relative_to resolved_candidate resolved_root)
  then Raise (HTTPException 400 "Invalid path.")
  else Ok resolved_candidate.
End PathGateway.

(** ** Data of the application *)

(** Tensors, decoded images and predicted scenes are never inspected by
    the orchestration layer: they are carried as opaque payloads. *)
Definition state_dict : Type := list byte.
Definition image : Type := list byte.
Definition gaussians : Type := list byte.

(** A loaded [RGBGaussianPredictor].  [instance_id] is the identity of
    the Python object: each construction allocates a new one. *)
Record predictor := {
  instance_id : nat;
  weights : state_dict;
  on_device : string;
}.

Record UploadPayload := {
  filename : string;
  content : list byte;
}.

(** One element of [outputs]: the dict built per image; the optional
    keys ["video"] and ["depth_video"] are options. *)
Record output_entry := {
  o_name : string;
  o_ply : string;
  o_preview : string;
  o_video : option string;
  o_depth_video : option string;
}.

Record manifest := {
  m_run_id : string;
  m_device : string;
  m_render_requested : bool;
  m_render_enabled : bool;
  m_outputs : list output_entry;
  m_warnings : list string;
  m_created_at : string;
}.

(** The dict returned by [process_inference]. *)
Record run_result := {
  r_run_id : string;
  r_device : string;
  r_render_requested : bool;
  r_render_enabled : bool;
  r_outputs : list output_entry;
  r_warnings : list string;
  r_bundle : string;
}.

(** What a file holds.  Artifacts produced by the external codecs are
    tagged with the value they encode. *)
#[warnings="-register-all"] Inductive file_data :=
  | Bytes (b : list byte)
  | PlyFile (g : gaussians)
  | PreviewJpeg (img : image)
  | VideoMp4 (g : gaussians)
  | DepthMp4 (g : gaussians)
  | ManifestJson (m : manifest)
  | ZipArchive (members : list (path * file_data)).

Inductive node :=
  | Dir
  | File (d : file_data).

(** Cache keys: [(str(checkpoint_path) or "default", device)]. *)
Definition cache_key : Type := string * string.

(** Instrumentation: the externally visible steps, in execution order. *)
Inductive event :=
  | EvMkdir (p : path)
  | EvWrite (p : path)
  | EvCacheGet (k : cache_key)
  | EvDownloadDefault
  | EvLoadSafe (p : path)
  | EvLoadUnsafe (p : path)
  | EvBuild (k : cache_key).

#[global] Instance event_eq_dec : EqDecision event.
Proof. solve_decision. Defined.

(** The process state: the file system below [/], the two dictionaries
    of [PREDICTOR_CACHE], the allocator of object identities and the
    instrumentation trace. *)
Record world := {
  fs : gmap path node;
  models : gmap cache_key predictor;
  unsafe : gmap cache_key bool;
  next_id : nat;
  trace : list event;
}.

(** Outcome of [torch.load]: a state dict; one of the two exceptions
    the cache catches ([pickle.UnpicklingError], [RuntimeError]); or an
    exception of any other class, which no handler of the cache stops:
    [ValueError msg] when its class derives from [ValueError]
    ([UnicodeDecodeError], ...), [OtherError] otherwise ([EOFError],
    [FileNotFoundError], ...). *)
Inductive load_outcome :=
  | Loaded (sd : state_dict)
  | Rejected
  | Failed (e : exn).

(** The external collaborators ([torch], [sharp.models], [sharp.utils],
    [sharp.cli], the clock). *)
Record Env := {
  cuda_is_available : bool;
  mps_is_available : bool;
  sha256 : list byte → list byte;
  hub_load_default : result state_dict;
  torch_load_safe : file_data → load_outcome;
  torch_load_full : file_data → load_outcome;
  make_predictor : state_dict → string → result unit;
  load_rgb : file_data → option image;
  predict_image : predictor → image → string → option gaussians;
  render_gaussians : gaussians → option bool;
}.

(** [hashlib.sha256(b).hexdigest()]. *)
Definition sha256_hexdigest (E : Env) (b : list byte) : string :=
  Str.hex_of_bytes (sha256 E b).

(** What the clock and [uuid4] deliver to one request: the local time
    when the run id is made, the sixteen random bytes of the UUID, and
    the local time when the manifest is written. *)
Record timestamp := {
  t_year : nat;
  t_month : nat;
  t_day : nat;
  t_hour : nat;
  t_minute : nat;
  t_second : nat;
}.

Record Clock := {
  started : timestamp;
  uuid4 : list byte;
  finished : timestamp;
}.

(** [time.strftime("%Y%m%d-%H%M%S")]. *)
Definition strftime_compact (t : timestamp) : string :=
  pretty (t_year t) +:+ Str.fmt_02d (t_month t) +:+ Str.fmt_02d (t_day t) +:+ "-"
  +:+ Str.fmt_02d (t_hour t) +:+ Str.fmt_02d (t_minute t) +:+ Str.fmt_02d (t_second t).

(** [time.strftime("%Y-%m-%d %H:%M:%S")]. *)
Definition strftime_iso (t : timestamp) : string :=
  pretty (t_year t) +:+ "-" +:+ Str.fmt_02d (t_month t) +:+ "-"
  +:+ Str.fmt_02d (t_day t) +:+ " " +:+ Str.fmt_02d (t_hour t) +:+ ":"
  +:+ Str.fmt_02d (t_minute t) +:+ ":" +:+ Str.fmt_02d (t_second t).

(** [f"{time.strftime('%Y%m%d-%H%M%S')}-{uuid.uuid4().hex[:8]}"]. *)
Definition make_run_id (clk : Clock) : string :=
  strftime_compact (started clk) +:+ "-"
  +:+ Str.take 8 (Str.hex_of_bytes (uuid4 clk)).

#[global] Arguments make_run_id : simpl never.
#[global] Arguments strftime_iso : simpl never.
#[global] Arguments sha256_hexdigest : simpl never.

(** ** The state-and-exception monad *)

Definition M (A : Type) : Type := world → result A * world.

Definition ret {A} (a : A) : M A := λ w, (Ok a, w).

Definition bind {A B} (m : M A) (k : A → M B) : M B :=
  λ w, match m w with
       | (Ok a, w') => k a w'
       | (Raise e, w') => (Raise e, w')
       end.

Definition raise {A} (e : exn) : M A := λ w, (Raise e, w).

(** [try: m except ValueError as exc: raise HTTPException(400, str(exc))]. *)
Definition value_error_to_400 {A} (m : M A) : M A :=
  λ w, match m w with
       | (Raise (ValueError msg), w') => (Raise (HTTPException 400 msg), w')
       | r => r
       end.

Definition lift {A} (r : result A) : M A := λ w, (r, w).

Definition get_world : M world := λ w, (Ok w, w).

Definition log (e : event) : M unit :=
  λ w, (Ok (), {| fs := fs w; models := models w; unsafe := unsafe w;
                  next_id := next_id w; trace := trace w ++ [e] |}).

Definition set_fs (f : gmap path node) : M unit :=
  λ w, (Ok (), {| fs := f; models := models w; unsafe := unsafe w;
                  next_id := next_id w; trace := trace w |}).

Declare Scope m_scope.
Delimit Scope m_scope with M.
Notation "'let*' x ':=' m 'in' k" := (bind m (λ x, k))
  (at level 10, x name, m at level 100, k at level 200) : m_scope.
Notation "'let*' ' p ':=' m 'in' k" := (bind m (λ x, match x with p => k end))
  (at level 10, p pattern, m at level 100, k at level 200) : m_scope.
Notation "m ;; k" := (bind m (λ _, k))
  (at level 100, k at level 200, right associativity) : m_scope.
#[local] Open Scope m_scope.

(** ** File-system operations *)

Definition is_dir (f : gmap path node) (p : path) : bool :=
  match p with
  | [] => true
  | _ => match f !! p with Some Dir => true | _ => false end
  end.

Definition path_exists (f : gmap path node) (p : path) : bool :=
  match p with
  | [] => true
  | _ => bool_decide (is_Some (f !! p))
  end.

(** The non-empty prefixes of a path, shortest first. *)
Fixpoint ancestors_from (base : path) (rest : list string) : list path :=
  match rest with
  | [] => []
  | c :: rest' => (base ++ [c]) :: ancestors_from (base ++ [c]) rest'
  end.

Fixpoint mkdir_chain (ps : list path) : M unit :=
  match ps with
  | [] => ret ()
  | p :: ps' =>
      let* w := get_world in
      match fs w !! p with
      | Some Dir => mkdir_chain ps'
      | Some (File _) =>
          raise (OtherError (match ps' with
                             | [] => "FileExistsError"
                             | _ => "NotADirectoryError"
                             end))
      | None => set_fs (<[p := Dir]> (fs w));; log (EvMkdir p);; mkdir_chain ps'
      end
  end.

(** [p.mkdir(parents=True, exist_ok=True)]. *)
Definition mkdir_p (p : path) : M unit := mkdir_chain (ancestors_from [] p).

(** [open(p, "wb").write(...)] and its variants ([write_bytes],
    [write_text], [image.save], [save_ply], [ZipFile(p, "w")]): the
    parent must be a directory and the target must not be one. *)
Definition write_file (p : path) (d : file_data) : M unit :=
  let* w := get_world in
  match reverse p with
  | [] => raise (OtherError "IsADirectoryError")
  | _ :: rparent =>
      if negb (is_dir (fs w) (reverse rparent)) then
        raise (OtherError (if path_exists (fs w) (reverse rparent)
                           then "NotADirectoryError" else "FileNotFoundError"))
      else if is_dir (fs w) p then raise (OtherError "IsADirectoryError")
      else set_fs (<[p := File d]> (fs w));; log (EvWrite p)
  end.

(** ** Messages *)

Definition msg_unsafe_rejected : string :=
  "Checkpoint was loaded with unsafe deserialization. Enable unsafe checkpoint loading to use it.".
Definition msg_deserialization_rejected : string :=
  "Checkpoint could not be loaded with safe deserialization. Enable unsafe checkpoint loading for trusted files.".
Definition msg_no_images : string := "No images provided.".
Definition warn_render_skipped : string :=
  "Rendering requires CUDA. Video render was skipped.".
Definition warn_unsafe_checkpoint : string :=
  "Checkpoint loaded with unsafe deserialization. Only use trusted checkpoint files.".

(** ** [PredictorCache] *)

Module PredictorCache.
Section WithEnv.
Context (E : Env).

Definition key_of (checkpoint_path : option path) (device : string) : cache_key :=
  (match checkpoint_path with Some p => Path.str p | None => "default" end, device).

(** [self._models[key] = predictor; self._unsafe[key] = used_unsafe]. *)
Definition store (key : cache_key) (p : predictor) (used_unsafe : bool) : M unit :=
  λ w, (Ok (), {| fs := fs w;
                  models := <[key := p]> (models w);
                  unsafe := <[key := used_unsafe]> (unsafe w);
                  next_id := next_id w;
                  trace := trace w ++ [EvBuild key] |}).

(** [create_predictor(...)], [load_state_dict], [eval], [to(device)]:
    a fresh object, or the exception the model code raised. *)
Definition construct (sd : state_dict) (device : string) : M predictor :=
  λ w, match make_predictor E sd device with
       | Ok _ =>
           (Ok {| instance_id := next_id w; weights := sd; on_device := device |},
            {| fs := fs w; models := models w; unsafe := unsafe w;
               next_id := S (next_id w); trace := trace w |})
       | Raise e => (Raise e, w)
       end.

(** [torch.load(checkpoint_path, weights_only=...)] opens and reads the
    file. *)
Definition torch_load (safe : bool) (checkpoint_path : path) : M load_outcome :=
  let* w := get_world in
  match fs w !! checkpoint_path with
  | Some (File d) => ret (if safe then torch_load_safe E d else torch_load_full E d)
  | Some Dir => ret (Failed (OtherError "IsADirectoryError"))
  | None => ret (Failed (OtherError "FileNotFoundError"))
  end.

(** The user-checkpoint branch of [get] (the [else] of line 67).  The
    [except] clause of line 72 names two classes; an exception of
    another class leaves [get] as it is, and so does whatever the
    second [torch.load], which runs inside the handler, raises. *)
Definition load_checkpoint (checkpoint_path : path) (allow_unsafe : bool)
  : M (state_dict * bool) :=
  log (EvLoadSafe checkpoint_path);;
  let* r := torch_load true checkpoint_path in
  match r with
  | Loaded sd => ret (sd, false)
  | Failed e => raise e
  | Rejected =>
      if negb allow_unsafe then raise (ValueError msg_deserialization_rejected)
      else
        log (EvLoadUnsafe checkpoint_path);;
        let* r2 := torch_load false checkpoint_path in
        match r2 with
        | Loaded sd => ret (sd, true)
        | Rejected => raise (OtherError "torch.load")
        | Failed e => raise e
        end
  end.

Definition get (checkpoint_path : option path) (device : string) (allow_unsafe : bool)
  : M (predictor * bool) :=
  let key := key_of checkpoint_path device in
  log (EvCacheGet key);;
  let* w := get_world in
  match models w !! key with
  | Some m =>
      let used_unsafe := default false (unsafe w !! key) in
      if used_unsafe && negb allow_unsafe
      then raise (ValueError msg_unsafe_rejected)
      else ret (m, used_unsafe)
  | None =>
      let* '(sd, used_unsafe) :=
        match checkpoint_path with
        | None =>
            log EvDownloadDefault;;
            let* sd := lift (hub_load_default E) in
            ret (sd, false)
        | Some p => load_checkpoint p allow_unsafe
        end in
      let* predictor := construct sd device in
      store key predictor used_unsafe;;
      ret (predictor, used_unsafe)
  end.

End WithEnv.
End PredictorCache.

(** ** [OutputState] *)

Module OutputState.

Record t := {
  _root : path;
  _runs : gmap string path;
}.

Definition init (root : path) : t := {| _root := root; _runs := ∅ |}.

Definition get_root (s : t) : path := _root s.

Definition set_root (root : path) (s : t) : t :=
  {| _root := root; _runs := _runs s |}.

Definition set_run_root (run_id : string) (root : path) (s : t) : t :=
  {| _root := _root s; _runs := <[run_id := root]> (_runs s) |}.

Definition get_run_root (s : t) (run_id : string) : path :=
  default (_root s) (_runs s !! run_id).

End OutputState.

(** ** File-name helpers *)

Definition safe_filename (name : string) : string :=
  let base := Str.replace_char " "%char "_"%char (Path.name_of_str name) in
  let filtered :=
    Str.filter_chars
      (λ ch, Str.isalnum ch
             || bool_decide (ch ∈ ["."%char; "_"%char; "-"%char])) base in
  if decide (filtered = "") then "upload" else filtered.

(** The [while candidate in used] loop; [fuel] bounds the iterations. *)
Fixpoint unique_loop (fuel : nat) (base suffix : string) (used : gset string)
    (candidate : string) (counter : nat) : option string :=
  if decide (candidate ∈ used) then
    match fuel with
    | 0 => None
    | S fuel' =>
        unique_loop fuel' base suffix used
          (base +:+ "-" +:+ pretty counter +:+ suffix) (S counter)
    end
  else Some candidate.

(** [unique_filename(name, used)]: the candidate and the updated set.
    [size used + 1] iterations always suffice
    ([unique_loop_terminates]). *)
Definition unique_filename (name : string) (used : gset string) : string * gset string :=
  let base := Path.stem (Path.name_of_str name) in
  let suffix := Path.suffix (Path.name_of_str name) in
  let candidate :=
    default (base +:+ suffix)
      (unique_loop (S (size used)) base suffix used (base +:+ suffix) 1) in
  (candidate, {[candidate]} ∪ used).

(** ** The request pipeline *)

Section WithEnv.
Context (E : Env).

Definition resolve_device (requested : string) : result string :=
  if decide (requested = "default") then
    if cuda_is_available E then Ok "cuda"
    else if mps_is_available E then Ok "mps"
    else Ok "cpu"
  else if negb (bool_decide (requested ∈ ["cpu"; "cuda"; "mps"])) then
    Raise (ValueError "Device must be one of: cpu, cuda, mps, default")
  else if bool_decide (requested = "cuda") && negb (cuda_is_available E) then
    Raise (ValueError "CUDA is not available on this machine.")
  else if bool_decide (requested = "mps") && negb (mps_is_available E) then
    Raise (ValueError "MPS is not available on this machine.")
  else Ok requested.

Definition store_checkpoint (payload : UploadPayload) (output_root : path) : M path :=
  let digest := sha256_hexdigest E (content payload) in
  let cache_dir := output_root </> "_checkpoints" in
  mkdir_p cache_dir;;
  let checkpoint_path := cache_dir </> (digest +:+ ".pt") in
  let* w := get_world in
  (if negb (path_exists (fs w) checkpoint_path)
   then write_file checkpoint_path (Bytes (content payload))
   else ret ());;
  ret checkpoint_path.

(** Members of the archive: every regular file strictly below
    [run_dir] except the bundle itself, named relative to [run_dir]. *)
Definition bundle_members (f : gmap path node) (run_dir bundle_path : path)
  : list (path * file_data) :=
  omap (λ '(p, n),
          match n with
          | File d =>
              if Path.is_relative_to p run_dir
                 && negb (bool_decide (p = run_dir))
                 && negb (bool_decide (p = bundle_path))
              then Some (drop (length run_dir) p, d)
              else None
          | Dir => None
          end)
       (map_to_list f).

(** [ZipFile(bundle_path, "w")] creates the (empty) archive before the
    directory is walked; closing it writes the members. *)
Definition create_bundle_zip (run_dir bundle_path : path) : M unit :=
  write_file bundle_path (ZipArchive []);;
  let* w := get_world in
  set_fs (<[bundle_path := File (ZipArchive (bundle_members (fs w) run_dir bundle_path))]>
            (fs w)).

Definition parent (p : path) : path := reverse (tail (reverse p)).

Definition write_preview (img : image) (output_path : path) : M unit :=
  mkdir_p (parent output_path);;
  write_file output_path (PreviewJpeg img).

(** [render_gaussians(gaussians, metadata, video_path)]: the renderer
    writes the video and, when it produces one, the depth video next to
    it. *)
Definition run_render (g : gaussians) (video_path : path) : M unit :=
  match render_gaussians E g with
  | None => raise (OtherError "render_gaussians")
  | Some with_depth =>
      write_file video_path (VideoMp4 g);;
      if with_depth
      then write_file (Path.with_suffix video_path ".depth.mp4") (DepthMp4 g)
      else ret ()
  end.

Definition read_image (input_path : path) : M image :=
  let* w := get_world in
  match fs w !! input_path with
  | Some (File d) =>
      match load_rgb E d with
      | Some img => ret img
      | None => raise (OtherError "io.load_rgb")
      end
  | _ => raise (OtherError "FileNotFoundError")
  end.

(** Body of the [for index, upload in enumerate(uploads, start=1)] loop. *)
Definition process_upload (pred : predictor) (device : string) (render_enabled : bool)
    (run_dir : path) (index : nat) (upload : UploadPayload) (used_names : gset string)
  : M (output_entry * gset string) :=
  let '(safe_name, used_names) := unique_filename (safe_filename (filename upload)) used_names in
  let input_path := run_dir </> (Str.fmt_02d index +:+ "_" +:+ safe_name) in
  write_file input_path (Bytes (content upload));;
  let* img := read_image input_path in
  let* g := match predict_image E pred img device with
            | Some g => ret g
            | None => raise (OtherError "predict_image")
            end in
  let stem := Path.stem (Path.name_of_str safe_name) in
  let ply_path := run_dir </> (stem +:+ ".ply") in
  write_file ply_path (PlyFile g);;
  let preview_path := run_dir </> (stem +:+ ".preview.jpg") in
  write_preview img preview_path;;
  let output := {| o_name := safe_name; o_ply := Path.name ply_path;
                   o_preview := Path.name preview_path;
                   o_video := None; o_depth_video := None |} in
  if render_enabled then
    let video_path := run_dir </> (stem +:+ ".mp4") in
    run_render g video_path;;
    let depth_path := Path.with_suffix video_path ".depth.mp4" in
    let* w := get_world in
    ret ({| o_name := safe_name; o_ply := Path.name ply_path;
            o_preview := Path.name preview_path;
            o_video := Some (Path.name video_path);
            o_depth_video := if path_exists (fs w) depth_path
                             then Some (Path.name depth_path) else None |},
         used_names)
  else ret (output, used_names).

Fixpoint process_uploads (pred : predictor) (device : string) (render_enabled : bool)
    (run_dir : path) (index : nat) (uploads : list UploadPayload)
    (used_names : gset string) (outputs : list output_entry) : M (list output_entry) :=
  match uploads with
  | [] => ret outputs
  | upload :: rest =>
      let* '(output, used_names) :=
        process_upload pred device render_enabled run_dir index upload used_names in
      process_uploads pred device render_enabled run_dir (S index) rest used_names
        (outputs ++ [output])
  end.

(** [process_inference]; [clk] is what the clock and [uuid4] return
    during the call. *)
Definition process_inference (uploads : list UploadPayload)
    (checkpoint : option UploadPayload) (requested_device : string)
    (render allow_unsafe : bool) (output_root : path)
    (clk : Clock) : M run_result :=
  if bool_decide (uploads = []) then raise (HTTPException 400 msg_no_images) else
  let* device := value_error_to_400 (lift (resolve_device requested_device)) in
  let render_enabled :=
    render && bool_decide (device = "cuda") && cuda_is_available E in
  let warnings := if render && negb render_enabled then [warn_render_skipped] else [] in
  let run_id := make_run_id clk in
  let run_dir := output_root </> run_id in
  mkdir_p run_dir;;
  let* checkpoint_path :=
    match checkpoint with
    | Some c => let* p := store_checkpoint c output_root in ret (Some p)
    | None => ret None
    end in
  let* '(pred, used_unsafe) :=
    value_error_to_400 (PredictorCache.get E checkpoint_path device allow_unsafe) in
  let warnings := if used_unsafe then warnings ++ [warn_unsafe_checkpoint] else warnings in
  let* outputs := process_uploads pred device render_enabled run_dir 1 uploads ∅ [] in
  let manifest := {| m_run_id := run_id; m_device := device;
                     m_render_requested := render; m_render_enabled := render_enabled;
                     m_outputs := outputs; m_warnings := warnings;
                     m_created_at := strftime_iso (finished clk) |} in
  write_file (run_dir </> "manifest.json") (ManifestJson manifest);;
  let bundle_path := run_dir </> "bundle.zip" in
  create_bundle_zip run_dir bundle_path;;
  ret {| r_run_id := run_id; r_device := device;
         r_render_requested := render; r_render_enabled := render_enabled;
         r_outputs := outputs; r_warnings := warnings;
         r_bundle := Path.name bundle_path |}.

(** ** Request handlers of [create_app] *)

(** The closure [run] of [/api/predict]: the state is the registry and
    the process state. *)
Definition predict_run (uploads : list UploadPayload) (checkpoint : option UploadPayload)
    (device : string) (render unsafe_checkpoint : bool) (clk : Clock)
    (st : OutputState.t) (w : world) : result run_result * OutputState.t * world :=
  let current_root := OutputState.get_root st in
  match process_inference uploads checkpoint device render unsafe_checkpoint
          current_root clk w with
  | (Ok res, w') => (Ok res, OutputState.set_run_root (r_run_id res) current_root st, w')
  | (Raise e, w') => (Raise e, st, w')
  end.

(** [/api/file/{run_id}/{filename}]: the path served, or the error. *)
Definition download_file (resolve : path → path) (st : OutputState.t) (f : gmap path node)
    (run_id filename : string) : result path :=
  let run_root := OutputState.get_run_root st run_id in
  match ensure_within resolve run_root (run_root </> run_id) with
  | Raise e => Raise e
  | Ok run_dir =>
      match ensure_within resolve run_dir (run_dir </> filename) with
      | Raise e => Raise e
      | Ok file_path =>
          if negb (path_exists f file_path)
          then Raise (HTTPException 404 "File not found.")
          else Ok file_path
      end
  end.

End WithEnv.

(** ** Vocabulary of the properties *)

(** [c] is [root] or a descendant of [root]. *)
Definition within (root c : path) : Prop :=
  c = root ∨ ∃ rest, rest ≠ [] ∧ c = root ++ rest.

(** A single ordinary path component: no separator, and none of the
    special names. *)
Definition is_plain (s : string) : bool :=
  negb (Str.mem_char "/"%char s)
  && negb (bool_decide (s = "")) && negb (bool_decide (s = "."))
  && negb (bool_decide (s = "..")).

(** A request to the cache, and the state after a sequence of them. *)
Record get_call := {
  g_checkpoint : option path;
  g_device : string;
  g_allow_unsafe : bool;
}.

Definition run_gets (E : Env) (calls : list get_call) (w : world) : world :=
  foldl (λ w c, snd (PredictorCache.get E (g_checkpoint c) (g_device c)
                       (g_allow_unsafe c) w)) w calls.

Definition is_load_event (e : event) : bool :=
  match e with
  | EvDownloadDefault | EvLoadSafe _ | EvLoadUnsafe _ => true
  | _ => false
  end.

(** Number of completed engine loads for key [k] among [evs]. *)
Definition builds (k : cache_key) (evs : list event) : nat :=
  length (filter (λ e, e = EvBuild k) evs).

(** Number of writes of file [p] among [evs]. *)
Definition writes (p : path) (evs : list event) : nat :=
  length (filter (λ e, e = EvWrite p) evs).

(** Where [store_checkpoint] keeps the payload [c] below [root]. *)
Definition checkpoint_path_of (E : Env) (c : UploadPayload) (root : path) : path :=
  root </> "_checkpoints" </> (sha256_hexdigest E (content c) +:+ ".pt").

(** The state after one more event was recorded. *)
Definition logged (e : event) (w : world) : world := snd (log e w).

(** The events a step appended to the trace. *)
Definition new_events (w w' : world) : list event :=
  drop (length (trace w)) (trace w').

#[global] Arguments new_events : simpl never.
#[global] Arguments builds : simpl never.
#[global] Arguments writes : simpl never.

Definition is_fs_event (e : event) : bool :=
  match e with
  | EvMkdir _ | EvWrite _ => true
  | _ => false
  end.

(** The state after file [p] was written with data [d]. *)
Definition written (p : path) (d : file_data) (w : world) : world :=
  {| fs := <[p := File d]> (fs w); models := models w; unsafe := unsafe w;
     next_id := next_id w; trace := trace w ++ [EvWrite p] |}.

(** Frame of a step that only works on the file system: the cache is
    untouched, only file-system events are logged, directories stay
    directories and nothing is removed. *)
Definition fs_step_rel (w w' : world) : Prop :=
  models w' = models w ∧ unsafe w' = unsafe w ∧ next_id w' = next_id w
  ∧ (∃ evs, trace w' = trace w ++ evs ∧ Forall (λ e, is_fs_event e = true) evs)
  ∧ (∀ p, fs w !! p = Some Dir → fs w' !! p = Some Dir)
  ∧ (∀ p, is_Some (fs w !! p) → is_Some (fs w' !! p)).

Definition is_video (d : file_data) : bool :=
  match d with
  | VideoMp4 _ | DepthMp4 _ => true
  | _ => false
  end.

(** No video artifact appears: every video file of [w'] was in [w]. *)
Definition no_new_video (w w' : world) : Prop :=
  ∀ p d, is_video d = true → fs w' !! p = Some (File d) → fs w !! p = Some (File d).

(** An output entry without the optional video keys. *)
Definition no_video_entry (o : output_entry) : Prop :=
  o_video o = None ∧ o_depth_video o = None.

(** [m] keeps the relation [R] between the state before and after. *)
Definition frame {A} (R : world → world → Prop) (m : M A) : Prop :=
  ∀ w, R w (snd (m w)).

(** [m] raises nothing but uncaught internal errors. *)
Definition benign {A} (m : M A) : Prop :=
  ∀ w e, fst (m w) = Raise e → ∃ what, e = OtherError what.

(** ** A sample environment *)

Definition ends_with_stop (b : list byte) : bool :=
  match last b with Some x2e => true | _ => false end.

(** The environment of the examples.

    A CPU-only machine.  A checkpoint file whose first byte is [x80]
    (the PROTO opcode) is a pickle stream: one that ends with the STOP
    opcode [x2e] stands for a checkpoint that the restricted loader
    rejects and the unrestricted loader accepts, one that is cut before
    STOP makes both loaders run out of input ([EOFError]); any other
    content stands for a plain state dict.  The stand-in digest is the
    content itself. *)
Definition sample_env : Env := {|
  cuda_is_available := false;
  mps_is_available := false;
  sha256 := λ b, b;
  hub_load_default := Ok [];
  torch_load_safe := λ d, match d with
                          | Bytes (x80 :: rest) =>
                              if ends_with_stop rest then Rejected
                              else Failed (OtherError "EOFError")
                          | Bytes b => Loaded b
                          | _ => Rejected
                          end;
  torch_load_full := λ d, match d with
                          | Bytes (x80 :: rest) =>
                              if ends_with_stop rest then Loaded (x80 :: rest)
                              else Failed (OtherError "EOFError")
                          | Bytes b => Loaded b
                          | _ => Rejected
                          end;
  make_predictor := λ _ _, Ok ();
  load_rgb := λ d, match d with Bytes b => Some b | _ => None end;
  predict_image := λ _ img _, Some img;
  render_gaussians := λ _, Some true;
|}.

(** A checkpoint that only the unrestricted loader accepts. *)
Definition pickled_checkpoint : UploadPayload :=
  {| filename := "model.pt"; content := [x80; x02; x7d; x2e] |}.

(** The same stream cut before its STOP opcode. *)
Definition truncated_checkpoint : list byte := [x80; x02; x7d].

Definition sample_clock : Clock :=
  {| started := {| t_year := 2025; t_month := 1; t_day := 2;
                   t_hour := 3; t_minute := 4; t_second := 5 |};
     uuid4 := [x0a; x0b; x0c; x0d; x0e; x0f; x10; x11;
               x12; x13; x14; x15; x16; x17; x18; x19];
     finished := {| t_year := 2025; t_month := 1; t_day := 2;
                    t_hour := 3; t_minute := 4; t_second := 9 |} |}.

Definition sample_clock_2 : Clock :=
  {| started := {| t_year := 2025; t_month := 1; t_day := 2;
                   t_hour := 3; t_minute := 5; t_second := 0 |};
     uuid4 := [xa0; xb0; xc0; xd0; xe0; xf0; x01; x02;
               x03; x04; x05; x06; x07; x08; x09; x0a];
     finished := {| t_year := 2025; t_month := 1; t_day := 2;
                    t_hour := 3; t_minute := 5; t_second := 2 |} |}.

Definition empty_world : world :=
  {| fs := ∅; models := ∅; unsafe := ∅; next_id := 0; trace := [] |}.

Definition upload (name body : string) : UploadPayload :=
  {| filename := name; content := String.list_byte_of_string body |}.

Abbreviation no_slash s := (Str.mem_char "/"%char s = false).

(** No file [p] is written. *)
Definition avoids (p : path) (w w' : world) : Prop :=
  ∃ evs, trace w' = trace w ++ evs ∧ writes p evs = 0.

(** What a step may do to the checkpoint file [cpth] and to the
    cache: every lookup it makes is for the identity [str(cpth)]; the
    file is written at most once, never when it exists, and exists
    afterwards if it was written or existed; for every key at most one
    build completes, none if the key is cached, and the key is cached
    afterwards if a build completed or it was cached. *)
Definition engine_rel (cpth : path) (w w' : world) : Prop :=
  ∃ evs, trace w' = trace w ++ evs
    ∧ (∀ k, EvCacheGet k ∈ evs → k.1 = Path.str cpth)
    ∧ writes cpth evs ≤ 1
    ∧ (path_exists (fs w) cpth = true → writes cpth evs = 0)
    ∧ (path_exists (fs w) cpth = true ∨ 0 < writes cpth evs →
       path_exists (fs w') cpth = true)
    ∧ (∀ k, builds k evs ≤ 1)
    ∧ (∀ k, is_Some (models w !! k) → builds k evs = 0)
    ∧ (∀ k, is_Some (models w !! k) ∨ 0 < builds k evs → is_Some (models w' !! k)).

Definition is_build_event (e : event) : bool :=
  match e with
  | EvBuild _ => true
  | _ => false
  end.

(* ================================================================== *)
(** * Part II: properties                                              *)
(* ================================================================== *)

(** ** Strings and paths *)

Lemma split_on_nonempty sep s : Str.split_on sep s ≠ [].
Proof. destruct s as [|c s]; simpl; [done|]. destruct (Ascii.eqb c sep), (Str.split_on sep s); done. Qed.

Lemma split_on_no_sep sep s : Str.mem_char sep s = false → Str.split_on sep s = [s].
Proof.
  induction s as [|c s IH]; simpl; [done|].
  intros [Hc Hs]%orb_false_elim. rewrite Hc, (IH Hs). done.
Qed.

Lemma is_plain_spec s :
  is_plain s = true →
  Str.mem_char "/"%char s = false ∧ s ≠ "" ∧ s ≠ "." ∧ s ≠ "..".
Proof.
  unfold is_plain. rewrite !andb_true_iff, !negb_true_iff, !bool_decide_eq_false.
  tauto.
Qed.

Lemma parse_parts_plain s : is_plain s = true → Path.parse_parts s = [s].
Proof.
  intros (Hs & Hne & Hdot & _)%is_plain_spec. unfold Path.parse_parts.
  rewrite split_on_no_sep by done. by rewrite filter_cons_True.
Qed.

Lemma is_absolute_plain s : is_plain s = true → Path.is_absolute_str s = false.
Proof.
  intros (Hs & _)%is_plain_spec. destruct s as [|c s]; simpl in *; [done|].
  by apply orb_false_elim in Hs as [-> _].
Qed.

Lemma joinpath_plain p s : is_plain s = true → p </> s = p ++ [s].
Proof.
  intros H. unfold Path.joinpath. by rewrite is_absolute_plain, parse_parts_plain.
Qed.

Lemma joinpath_dotdot p x : is_plain x = true → p </> ("../" +:+ x) = p ++ [".."; x].
Proof.
  intros (Hs & Hne & Hdot & _)%is_plain_spec. unfold Path.joinpath, Path.parse_parts.
  simpl. rewrite split_on_no_sep by done.
  rewrite filter_cons_True by done. by rewrite filter_cons_True.
Qed.

Lemma is_relative_to_prefix self other :
  Path.is_relative_to self other = true ↔ other `prefix_of` self.
Proof.
  revert self. induction other as [|o os IH]; intros self.
  - destruct self; simpl; (split; [intros _; apply prefix_nil | done]).
  - destruct self as [|s ss]; simpl.
    + split; [done | intros [k Hk]; discriminate].
    + rewrite andb_true_iff, bool_decide_eq_true, IH. split.
      * intros [-> Hp]. by apply prefix_cons.
      * intros [k Hk]. simplify_eq/=. split; [done | by exists k].
Qed.

Lemma within_prefix root c : within root c ↔ root `prefix_of` c.
Proof.
  unfold within. split.
  - intros [-> | (rest & _ & ->)]; [done | by exists rest].
  - intros [k ->]. destruct k as [|x k]; [left; by rewrite app_nil_r|].
    right. by exists (x :: k).
Qed.

Lemma normpath_app p q :
  Path.normpath (p ++ q) = reverse (foldl Path.norm_step (reverse (Path.normpath p)) q).
Proof. unfold Path.normpath. by rewrite foldl_app, reverse_involutive. Qed.

Lemma normpath_dotdot r x n :
  is_plain x = true → last (Path.normpath r) = Some n →
  Path.normpath (r ++ [".."; x]) = removelast (Path.normpath r) ++ [x].
Proof.
  intros (Hs & Hne & Hdot & Hdd)%is_plain_spec Hlast.
  rewrite normpath_app. destruct (Path.normpath r) as [|a l] using rev_ind; [done|].
  rewrite removelast_last, reverse_snoc. simpl.
  unfold Path.norm_step at 2. rewrite decide_True by done. simpl.
  unfold Path.norm_step. rewrite decide_False by done.
  rewrite decide_False by (intros [?|?]; done).
  by rewrite reverse_cons, reverse_involutive.
Qed.

(** ** Characters of generated names *)

Lemma mem_char_app c s1 s2 :
  Str.mem_char c (s1 +:+ s2) = Str.mem_char c s1 || Str.mem_char c s2.
Proof. induction s1 as [|a s1 IH]; simpl; [done|]. by rewrite IH, orb_assoc. Qed.

Lemma mem_char_take c n s : Str.mem_char c s = false → Str.mem_char c (Str.take n s) = false.
Proof.
  revert n. induction s as [|a s IH]; intros [|n]; simpl; try done.
  intros [-> Hs]%orb_false_elim. by rewrite IH.
Qed.

Lemma mem_char_drop c n s : Str.mem_char c s = false → Str.mem_char c (Str.drop n s) = false.
Proof.
  revert n. induction s as [|a s IH]; intros [|n]; simpl; try done.
  intros [_ Hs]%orb_false_elim. by apply IH.
Qed.

Lemma mem_char_filter c keep s :
  keep c = false → Str.mem_char c (Str.filter_chars keep s) = false.
Proof.
  intros Hc. induction s as [|a s IH]; simpl; [done|].
  destruct (keep a) eqn:Ha; simpl; [|done]. rewrite IH, orb_false_r.
  apply Ascii.eqb_neq. intros ->. congruence.
Qed.

(** A character outside a class does not occur in a string made of
    characters of the class. *)
Lemma eqb_other_class (P : ascii → bool) a c :
  P a = true → P c = false → Ascii.eqb a c = false.
Proof. intros Ha Hc. apply Ascii.eqb_neq. intros ->. congruence. Qed.

Lemma pretty_N_char_digit x : Str.is_digit (pretty_N_char x) = true.
Proof. unfold pretty_N_char. by repeat case_match. Qed.

Lemma pretty_N_go_chars c x s :
  Str.is_digit c = false → Str.mem_char c s = false →
  Str.mem_char c (pretty_N_go x s) = false.
Proof.
  intros Hc. revert s. induction (N.lt_wf_0 x) as [x _ IH]; intros s Hs.
  assert (x = 0 ∨ 0 < x)%N as [->|?] by lia.
  - by rewrite pretty_N_go_0.
  - rewrite pretty_N_go_step by done. apply IH; [by apply N.div_lt|].
    simpl. rewrite Hs, orb_false_r.
    apply (eqb_other_class Str.is_digit); [apply pretty_N_char_digit | done].
Qed.

Lemma pretty_nat_chars c (n : nat) :
  Str.is_digit c = false → Str.mem_char c (pretty n) = false.
Proof.
  intros Hc. unfold pretty, pretty_nat, pretty, pretty_N. case_decide.
  - cbn [Str.mem_char]. rewrite orb_false_r. by apply (eqb_other_class Str.is_digit).
  - by apply pretty_N_go_chars.
Qed.

Lemma fmt_02d_chars c n :
  Str.is_digit c = false → Str.mem_char c (Str.fmt_02d n) = false.
Proof.
  intros Hc. unfold Str.fmt_02d. destruct (n <? 10); [|by apply pretty_nat_chars].
  rewrite mem_char_app, pretty_nat_chars by done. cbn [Str.mem_char].
  rewrite !orb_false_r. by apply (eqb_other_class Str.is_digit).
Qed.

Lemma hex_digit_is_hex k : Str.is_hex_digit (Str.hex_digit k) = true.
Proof. unfold Str.hex_digit. do 16 (destruct k as [|k]; [done|]). done. Qed.

Lemma hex_of_bytes_chars c bs :
  Str.is_hex_digit c = false → Str.mem_char c (Str.hex_of_bytes bs) = false.
Proof.
  intros Hc. induction bs as [|b bs IH]; [done|].
  cbn [Str.hex_of_bytes]. rewrite mem_char_app, IH, orb_false_r.
  unfold Str.hex_of_byte. cbn [Str.mem_char].
  rewrite !(eqb_other_class Str.is_hex_digit _ c) by (done || apply hex_digit_is_hex).
  done.
Qed.

Lemma not_hex_not_digit c : Str.is_hex_digit c = false → Str.is_digit c = false.
Proof. unfold Str.is_hex_digit, Str.is_digit. by intros [? _]%orb_false_elim. Qed.

Lemma strftime_compact_chars c t :
  Str.is_digit c = false → c ≠ "-"%char →
  Str.mem_char c (strftime_compact t) = false.
Proof.
  intros Hc Hd. unfold strftime_compact.
  rewrite !mem_char_app, !fmt_02d_chars, pretty_nat_chars by done.
  cbn [Str.mem_char]. rewrite (proj2 (Ascii.eqb_neq _ _)) by done. done.
Qed.

(** Run ids consist of digits, hexadecimal digits and dashes. *)
Lemma make_run_id_chars c clk :
  Str.is_hex_digit c = false → c ≠ "-"%char →
  Str.mem_char c (make_run_id clk) = false.
Proof.
  intros Hc Hd. unfold make_run_id.
  rewrite !mem_char_app, strftime_compact_chars by (done || by apply not_hex_not_digit).
  rewrite mem_char_take by (by apply hex_of_bytes_chars).
  cbn [Str.mem_char]. rewrite (proj2 (Ascii.eqb_neq _ _)) by done. done.
Qed.

Lemma is_plain_intro s c :
  no_slash s → Str.mem_char c s = true → c ≠ "."%char → is_plain s = true.
Proof.
  intros Hs Hc Hdot. unfold is_plain. rewrite Hs. simpl.
  rewrite !andb_true_iff, !negb_true_iff, !bool_decide_eq_false.
  split; [split|]; intros ->; cbn [Str.mem_char] in Hc; try done.
  - rewrite orb_false_r in Hc. apply Ascii.eqb_eq in Hc. congruence.
  - rewrite orb_false_r, orb_diag in Hc. apply Ascii.eqb_eq in Hc. congruence.
Qed.

(** A run id is an ordinary directory name, and never the name of the
    checkpoint directory. *)
Lemma run_id_plain clk :
  is_plain (make_run_id clk) = true ∧ make_run_id clk ≠ "_checkpoints".
Proof.
  split.
  - apply (is_plain_intro _ "-"%char); [by apply make_run_id_chars | | done].
    unfold make_run_id. rewrite !mem_char_app. cbn [Str.mem_char].
    rewrite Ascii.eqb_refl. simpl. by rewrite orb_true_r.
  - intros Heq. pose proof (make_run_id_chars "_"%char clk eq_refl) as Hc.
    rewrite Heq in Hc. by specialize (Hc ltac:(done)).
Qed.

(** The name of a stored checkpoint is an ordinary file name. *)
Lemma digest_plain E b : is_plain (sha256_hexdigest E b +:+ ".pt") = true.
Proof.
  apply (is_plain_intro _ "p"%char); [| | done].
  - rewrite mem_char_app. unfold sha256_hexdigest.
    by rewrite hex_of_bytes_chars.
  - rewrite mem_char_app. apply orb_true_intro. by right.
Qed.

(** ** File names never contain a separator *)

Lemma pretty_nat_no_slash (n : nat) : no_slash (pretty n).
Proof. by apply pretty_nat_chars. Qed.

Lemma fmt_02d_no_slash n : no_slash (Str.fmt_02d n).
Proof. by apply fmt_02d_chars. Qed.

Lemma name_of_str_no_slash s : no_slash s → no_slash (Path.name_of_str s).
Proof.
  intros Hs. unfold Path.name_of_str, Path.parse_parts.
  rewrite split_on_no_sep by done.
  destruct (decide (s ≠ "" ∧ s ≠ ".")).
  - by rewrite filter_cons_True.
  - by rewrite filter_cons_False.
Qed.

Lemma stem_no_slash s : no_slash s → no_slash (Path.stem s).
Proof.
  intros Hs. unfold Path.stem. destruct (Path.split_index s); [|done].
  by apply mem_char_take.
Qed.

Lemma suffix_no_slash s : no_slash s → no_slash (Path.suffix s).
Proof.
  intros Hs. unfold Path.suffix. destruct (Path.split_index s); [|done].
  by apply mem_char_drop.
Qed.

Lemma safe_filename_no_slash name : no_slash (safe_filename name).
Proof.
  unfold safe_filename. case_decide; [done|]. by apply mem_char_filter.
Qed.

Lemma unique_loop_no_slash fuel base suffix used cand counter r :
  no_slash base → no_slash suffix → no_slash cand →
  unique_loop fuel base suffix used cand counter = Some r → no_slash r.
Proof.
  intros Hb Hs. revert cand counter.
  induction fuel as [|fuel IH]; intros cand counter Hc; simpl;
    case_decide; try done; try (by intros [= <-]).
  apply IH. rewrite !mem_char_app, Hb, Hs, pretty_nat_no_slash. done.
Qed.

Lemma unique_filename_no_slash name used :
  no_slash name → no_slash (unique_filename name used).1.
Proof.
  intros Hn. unfold unique_filename. generalize (S (size used)). intros fuel. simpl.
  assert (Hb := stem_no_slash _ (name_of_str_no_slash _ Hn)).
  assert (Hs := suffix_no_slash _ (name_of_str_no_slash _ Hn)).
  assert (Hc : no_slash (Path.stem (Path.name_of_str name)
                         +:+ Path.suffix (Path.name_of_str name)))
    by (by rewrite mem_char_app, Hb, Hs).
  destruct (unique_loop _ _ _ _ _ _) as [r|] eqn:Hr; simpl; [|exact Hc].
  eapply unique_loop_no_slash; [exact Hb | exact Hs | exact Hc | exact Hr].
Qed.

(** A separator-free string that contains a character other than a dot
    is one ordinary component. *)
Lemma joinpath_component p s c :
  no_slash s → Str.mem_char c s = true → c ≠ "."%char → p </> s = p ++ [s].
Proof.
  intros Hs Hc Hdot.
  assert (s ≠ "") by (intros ->; done).
  assert (s ≠ ".").
  { intros ->. cbn [Str.mem_char] in Hc. rewrite orb_false_r in Hc.
    apply Ascii.eqb_eq in Hc. congruence. }
  unfold Path.joinpath, Path.parse_parts.
  rewrite split_on_no_sep by done. rewrite filter_cons_True by done.
  destruct s as [|a s]; [done|]. cbn [Str.mem_char Path.is_absolute_str] in *.
  apply orb_false_elim in Hs as [-> _]. done.
Qed.

(** ** C1: the path gateway *)

Lemma ensure_within_ok resolve r p c :
  ensure_within resolve r p = Ok c ↔ c = resolve p ∧ within (resolve r) (resolve p).
Proof.
  unfold ensure_within. rewrite within_prefix, <- is_relative_to_prefix.
  destruct (Path.is_relative_to (resolve p) (resolve r)); simpl; split.
  - intros [= <-]. done.
  - intros [-> _]. done.
  - done.
  - intros [_ ?]. done.
Qed.

Lemma ensure_within_escape resolve r p :
  ¬ within (resolve r) (resolve p) →
  ensure_within resolve r p = Raise (HTTPException 400 "Invalid path.").
Proof.
  unfold ensure_within. rewrite within_prefix, <- is_relative_to_prefix.
  destruct (Path.is_relative_to (resolve p) (resolve r)); simpl; [|done].
  intros []; done.
Qed.

(** The literal reading of C1's last clause fails: below root [/a/b],
    the candidate [/a/b/../b] is the root itself and is accepted. *)
Lemma ensure_within_dotdot_accepted :
  ensure_within Path.normpath ["a"; "b"] (["a"; "b"] </> "../b") = Ok ["a"; "b"].
Proof. reflexivity. Qed.

(** C1 (amended).  [ensure_within] returns the resolved candidate exactly
    when the canonical candidate is the canonical root or a descendant of
    it, and raises HTTP 400 "Invalid path." otherwise.  On a file system
    without symbolic links, where [resolve] is [Path.normpath],
    [ensure_within r (r / "../x")] is rejected whenever [x] is an ordinary
    name different from the last component of the canonical root. *)
Theorem ensure_within_gateway (resolve : path → path) (r p : path) :
  (∀ c, ensure_within resolve r p = Ok c ↔
        c = resolve p ∧ within (resolve r) (resolve p))
  ∧ (¬ within (resolve r) (resolve p) →
     ensure_within resolve r p = Raise (HTTPException 400 "Invalid path."))
  ∧ (∀ x n, (∀ q, resolve q = Path.normpath q) → is_plain x = true →
       last (resolve r) = Some n → n ≠ x →
       ensure_within resolve r (r </> ("../" +:+ x))
       = Raise (HTTPException 400 "Invalid path.")).
Proof.
  split; [intros c; apply ensure_within_ok|].
  split; [apply ensure_within_escape|].
  intros x n Hres Hx Hlast Hne. apply ensure_within_escape.
  rewrite within_prefix, !Hres, joinpath_dotdot by done.
  rewrite Hres in Hlast. rewrite (normpath_dotdot _ _ n) by done.
  destruct (Path.normpath r) as [|a l] using rev_ind; [done|].
  rewrite last_snoc in Hlast. simplify_eq.
  rewrite removelast_last. intros [k Hk].
  rewrite <- !app_assoc in Hk. apply app_inv_head in Hk. simplify_eq/=.
Qed.

Lemma ensure_within_gateway_witness :
  ensure_within Path.normpath ["out"; "run1"] (["out"; "run1"] </> ("../" +:+ "x"))
  = Raise (HTTPException 400 "Invalid path.").
Proof.
  apply (proj2 (proj2 (ensure_within_gateway Path.normpath ["out"; "run1"] [])) "x" "run1");
    [done | reflexivity | reflexivity | done].
Defined.

(** ** C6: the empty request *)

(** C6.  With no images, [process_inference] raises HTTP 400
    "No images provided." and the process state is exactly what it was:
    no directory or file is created and the cache is neither consulted
    (no event is logged) nor modified.  The [/api/predict] handler
    passes the failure on and binds no run id. *)
Theorem empty_request_rejected_without_effect (E : Env)
    (checkpoint : option UploadPayload) (requested_device : string)
    (render allow_unsafe : bool) (output_root : path)
    (clk : Clock) (st : OutputState.t) (w : world) :
  process_inference E [] checkpoint requested_device render allow_unsafe
    output_root clk w
  = (Raise (HTTPException 400 "No images provided."), w)
  ∧ new_events w (snd (process_inference E [] checkpoint requested_device render
                         allow_unsafe output_root clk w)) = []
  ∧ predict_run E [] checkpoint requested_device render allow_unsafe clk st w
    = (Raise (HTTPException 400 "No images provided."), st, w).
Proof.
  split; [reflexivity|]. split; [|reflexivity].
  simpl. unfold new_events. by rewrite drop_all.
Qed.

(** ** C4: the output-root registry *)

Lemma set_root_runs root s : OutputState._runs (OutputState.set_root root s) = OutputState._runs s.
Proof. reflexivity. Qed.

Lemma set_roots_runs roots s :
  OutputState._runs (foldl (λ s r, OutputState.set_root r s) s roots) = OutputState._runs s.
Proof.
  revert s. induction roots as [|r roots IH]; intros s; simpl; [done|].
  by rewrite IH.
Qed.

Lemma set_roots_root roots s :
  OutputState.get_root (foldl (λ s r, OutputState.set_root r s) s roots)
  = default (OutputState.get_root s) (last roots).
Proof.
  induction roots as [|r roots IH] using rev_ind; [done|].
  by rewrite foldl_app, last_snoc.
Qed.

(** C4.  Once [run_id] is bound to [R1], any sequence of [set_root]
    calls leaves [get_run_root run_id] at [R1] and the whole binding
    table untouched; only the global root moves (to the last root set),
    and a run id that was never bound resolves through that current
    global root. *)
Theorem set_root_keeps_bound_runs (s : OutputState.t) (run_id : string)
    (R1 : path) (roots : list path) :
  let s1 := OutputState.set_run_root run_id R1 s in
  let s2 := foldl (λ s r, OutputState.set_root r s) s1 roots in
  OutputState.get_run_root s2 run_id = R1
  ∧ OutputState._runs s2 = OutputState._runs s1
  ∧ OutputState.get_root s2 = default (OutputState.get_root s) (last roots)
  ∧ (∀ other, OutputState._runs s1 !! other = None →
       OutputState.get_run_root s2 other = OutputState.get_root s2).
Proof.
  intros s1 s2. subst s2.
  assert (Hruns := set_roots_runs roots s1).
  repeat split.
  - unfold OutputState.get_run_root. rewrite Hruns. subst s1. simpl.
    by rewrite lookup_insert_eq.
  - done.
  - by rewrite set_roots_root.
  - intros other Hnone. unfold OutputState.get_run_root.
    by rewrite Hruns, Hnone.
Qed.

Lemma set_root_keeps_bound_runs_witness :
  OutputState.get_run_root
    (OutputState.set_root ["R2"]
       (OutputState.set_run_root "run1" ["R1"] (OutputState.init ["R1"]))) "run2"
  = ["R2"].
Proof.
  apply (proj2 (proj2 (proj2
    (set_root_keeps_bound_runs (OutputState.init ["R1"]) "run1" ["R1"] [["R2"]])))
    "run2").
  reflexivity.
Defined.

(** A run created by the [/api/predict] handler while the global root
    is [R1] is bound to [R1], and still resolves through it after the
    root has been changed. *)
Lemma predict_run_binds_current_root E ups cp dev rnd al clk s w res s' w' roots :
  predict_run E ups cp dev rnd al clk s w = (Ok res, s', w') →
  OutputState.get_run_root
    (foldl (λ s r, OutputState.set_root r s) s' roots) (r_run_id res)
  = OutputState.get_root s.
Proof.
  unfold predict_run.
  destruct (process_inference _ _ _ _ _ _ _ _ w) as [[res0|e] w0]; [|done].
  intros [= <- <- <-]. unfold OutputState.get_run_root.
  rewrite set_roots_runs. simpl. by rewrite lookup_insert_eq.
Qed.

(** ** The predictor cache *)

Ltac munfold :=
  unfold bind, ret, raise, lift, log, get_world, set_fs, logged in *; simpl in *.

Lemma new_events_app w w' evs :
  trace w' = trace w ++ evs → new_events w w' = evs.
Proof. intros H. unfold new_events. by rewrite H, drop_app_length. Qed.

(** A cache hit: the decision is taken from the stored flag and the
    request's [allow_unsafe]; nothing but the trace changes. *)
Lemma get_hit E cp dev allow w m :
  models w !! PredictorCache.key_of cp dev = Some m →
  PredictorCache.get E cp dev allow w
  = (let used_unsafe := default false (unsafe w !! PredictorCache.key_of cp dev) in
     if used_unsafe && negb allow
     then Raise (ValueError msg_unsafe_rejected)
     else Ok (m, used_unsafe),
     logged (EvCacheGet (PredictorCache.key_of cp dev)) w).
Proof.
  intros Hm. unfold PredictorCache.get. munfold. rewrite Hm.
  destruct (default false _ && negb allow); done.
Qed.

Lemma torch_load_eq E safe p w :
  PredictorCache.torch_load E safe p w
  = (Ok (match fs w !! p with
         | Some (File d) => if safe then torch_load_safe E d else torch_load_full E d
         | Some Dir => Failed (OtherError "IsADirectoryError")
         | None => Failed (OtherError "FileNotFoundError")
         end), w).
Proof.
  unfold PredictorCache.torch_load. munfold.
  destruct (fs w !! p) as [[|d]|]; done.
Qed.

(** Loading a user checkpoint touches nothing but the trace. *)
Lemma load_checkpoint_frame E p allow w :
  let w' := snd (PredictorCache.load_checkpoint E p allow w) in
  fs w' = fs w ∧ models w' = models w ∧ unsafe w' = unsafe w ∧ next_id w' = next_id w.
Proof.
  unfold PredictorCache.load_checkpoint. munfold. rewrite torch_load_eq. simpl.
  destruct (fs w !! p) as [[|d]|]; simpl; try done.
  destruct (torch_load_safe E d); simpl; try done.
  destruct allow; simpl; try done.
  rewrite torch_load_eq. simpl.
  destruct (fs w !! p) as [[|d']|]; simpl; try done.
  destruct (torch_load_full E d'); done.
Qed.

(** Entries are never replaced: a call to [get], for whatever key,
    leaves every entry that is present as it is. *)
Lemma get_keeps_entries E cp dev allow w k m :
  models w !! k = Some m →
  models (snd (PredictorCache.get E cp dev allow w)) !! k = Some m
  ∧ unsafe (snd (PredictorCache.get E cp dev allow w)) !! k = unsafe w !! k.
Proof.
  intros Hk.
  destruct (models w !! PredictorCache.key_of cp dev) as [m'|] eqn:Hm.
  { by rewrite (get_hit _ _ _ _ _ _ Hm). }
  assert (PredictorCache.key_of cp dev ≠ k) as Hne by congruence.
  unfold PredictorCache.get. munfold. rewrite Hm.
  destruct cp as [p|]; simpl.
  - pose proof (load_checkpoint_frame E p allow
      (logged (EvCacheGet (PredictorCache.key_of (Some p) dev)) w)) as Hf.
    munfold.
    destruct (PredictorCache.load_checkpoint _ _ _ _) as [[[sd u]|e] w1];
      simpl in *; destruct Hf as (_ & Hmo & Hun & _); [|by rewrite Hmo, Hun].
    unfold PredictorCache.construct, PredictorCache.store.
    destruct (make_predictor E sd dev); simpl; [|by rewrite Hmo, Hun].
    rewrite !lookup_insert_ne by done. by rewrite Hmo, Hun.
  - destruct (hub_load_default E) as [sd|e]; simpl; [|done].
    unfold PredictorCache.construct, PredictorCache.store.
    destruct (make_predictor E sd dev); simpl; [|done].
    by rewrite !lookup_insert_ne.
Qed.

Lemma run_gets_keeps_entries E calls w k m :
  models w !! k = Some m →
  models (run_gets E calls w) !! k = Some m
  ∧ unsafe (run_gets E calls w) !! k = unsafe w !! k.
Proof.
  revert w. induction calls as [|c calls IH]; intros w Hk; simpl; [done|].
  destruct (get_keeps_entries E (g_checkpoint c) (g_device c) (g_allow_unsafe c) w k m Hk)
    as [Hm Hu].
  destruct (IH _ Hm) as [Hm' Hu']. split; [done | congruence].
Qed.

(** ** C2: an unsafely loaded entry is gated per request *)

(** C2.  If the entry of key [(identity, device)] is marked as loaded
    unsafely, then after any further sequence of cache requests (for any
    keys, with any flags) a request for that key with
    [allow_unsafe = false] raises the "loaded with unsafe
    deserialization" error although the instance is cached, and a
    request with [allow_unsafe = true] returns that same cached instance
    with [used_unsafe = true]; neither changes the cache, so the outcome
    depends on the flag of the request alone. *)
Theorem unsafe_entry_gated_per_request (E : Env) (cp : option path) (dev : string)
    (m : predictor) (w : world) (calls : list get_call) :
  models w !! PredictorCache.key_of cp dev = Some m →
  unsafe w !! PredictorCache.key_of cp dev = Some true →
  let w1 := run_gets E calls w in
  let key := PredictorCache.key_of cp dev in
  PredictorCache.get E cp dev false w1
    = (Raise (ValueError msg_unsafe_rejected), logged (EvCacheGet key) w1)
  ∧ PredictorCache.get E cp dev true w1
    = (Ok (m, true), logged (EvCacheGet key) w1)
  ∧ models (logged (EvCacheGet key) w1) = models w1
  ∧ unsafe (logged (EvCacheGet key) w1) = unsafe w1
  ∧ models w1 !! key = Some m.
Proof.
  intros Hm Hu w1 key.
  destruct (run_gets_keeps_entries E calls w _ m Hm) as [Hm1 Hu1].
  rewrite Hu in Hu1. fold w1 key in Hm1, Hu1.
  rewrite !(get_hit E cp dev _ w1 m Hm1). fold key. rewrite Hu1. done.
Qed.

Lemma unsafe_entry_gated_per_request_witness :
  let p := {| instance_id := 0; weights := []; on_device := "cpu" |} in
  let w := {| fs := ∅; models := {[ ("/w.pt", "cpu") := p ]};
              unsafe := {[ ("/w.pt", "cpu") := true ]}; next_id := 1; trace := [] |} in
  fst (PredictorCache.get sample_env (Some ["w.pt"]) "cpu" false w)
    = Raise (ValueError msg_unsafe_rejected)
  ∧ fst (PredictorCache.get sample_env (Some ["w.pt"]) "cpu" true w) = Ok (p, true).
Proof.
  intros p w.
  destruct (unsafe_entry_gated_per_request sample_env (Some ["w.pt"]) "cpu" p w [])
    as (H1 & H2 & _); [reflexivity | reflexivity |].
  simpl in H1, H2. rewrite H1, H2. done.
Defined.

(** ** C3: safe deserialization first, unsafe only on request *)

Lemma bind_unfold {A B} (m : M A) (k : A → M B) w :
  bind m k w = match m w with
               | (Ok a, w') => k a w'
               | (Raise e, w') => (Raise e, w')
               end.
Proof. reflexivity. Qed.

(** What [get] does on a miss for a user checkpoint, by outcome of the
    restricted loader. *)
Lemma get_miss_user E p dev allow w :
  models w !! PredictorCache.key_of (Some p) dev = None →
  PredictorCache.get E (Some p) dev allow w
  = bind (PredictorCache.load_checkpoint E p allow)
         (λ '(sd, used_unsafe),
            let* predictor := PredictorCache.construct E sd dev in
            PredictorCache.store (PredictorCache.key_of (Some p) dev) predictor used_unsafe;;
            ret (predictor, used_unsafe))
         (logged (EvCacheGet (PredictorCache.key_of (Some p) dev)) w).
Proof.
  intros Hm. unfold PredictorCache.get. munfold. by rewrite Hm.
Qed.

Lemma load_checkpoint_rejected_refused E p w d :
  fs w !! p = Some (File d) → torch_load_safe E d = Rejected →
  PredictorCache.load_checkpoint E p false w
  = (Raise (ValueError msg_deserialization_rejected), logged (EvLoadSafe p) w).
Proof.
  intros Hf Hr. unfold PredictorCache.load_checkpoint. munfold.
  rewrite torch_load_eq. simpl. by rewrite Hf, Hr.
Qed.

Lemma load_checkpoint_rejected_allowed E p w d :
  fs w !! p = Some (File d) → torch_load_safe E d = Rejected →
  PredictorCache.load_checkpoint E p true w
  = (match torch_load_full E d with
     | Loaded sd => Ok (sd, true)
     | Rejected => Raise (OtherError "torch.load")
     | Failed e => Raise e
     end, logged (EvLoadUnsafe p) (logged (EvLoadSafe p) w)).
Proof.
  intros Hf Hr. unfold PredictorCache.load_checkpoint. munfold.
  rewrite torch_load_eq. simpl. rewrite Hf, Hr. simpl.
  rewrite torch_load_eq. simpl. rewrite Hf.
  destruct (torch_load_full E d); done.
Qed.

Lemma load_checkpoint_failed E p allow w d e :
  fs w !! p = Some (File d) → torch_load_safe E d = Failed e →
  PredictorCache.load_checkpoint E p allow w = (Raise e, logged (EvLoadSafe p) w).
Proof.
  intros Hf Hr. unfold PredictorCache.load_checkpoint. munfold.
  rewrite torch_load_eq. simpl. by rewrite Hf, Hr.
Qed.

(** The trace of [load_checkpoint]: the safe attempt comes first, and
    an unsafe attempt is made only for a request that allows it and
    only after the restricted loader rejected the file. *)
Lemma load_checkpoint_trace E p allow w :
  trace (snd (PredictorCache.load_checkpoint E p allow w)) = trace w ++ [EvLoadSafe p]
  ∨ (trace (snd (PredictorCache.load_checkpoint E p allow w))
       = trace w ++ [EvLoadSafe p; EvLoadUnsafe p]
     ∧ allow = true
     ∧ ∃ d, fs w !! p = Some (File d) ∧ torch_load_safe E d = Rejected).
Proof.
  unfold PredictorCache.load_checkpoint. munfold. rewrite torch_load_eq. simpl.
  destruct (fs w !! p) as [[|d]|] eqn:Hf; simpl; try (by left).
  destruct (torch_load_safe E d) eqn:Hs; simpl; try (by left).
  destruct allow; simpl; [|by left].
  rewrite torch_load_eq. simpl. rewrite Hf. right.
  split; [|split; [done | by exists d]].
  destruct (torch_load_full E d); simpl; by rewrite <- app_assoc.
Qed.

Lemma construct_store_trace E sd dev key u w :
  let r := bind (PredictorCache.construct E sd dev)
                (λ predictor, PredictorCache.store key predictor u;;
                              ret (predictor, u)) w in
  (∃ evs, trace (snd r) = trace w ++ evs ∧ Forall (λ e, e = EvBuild key) evs)
  ∧ ∀ pred u', fst r = Ok (pred, u') →
      u' = u ∧ models (snd r) !! key = Some pred ∧ unsafe (snd r) !! key = Some u.
Proof.
  unfold PredictorCache.construct, PredictorCache.store. munfold.
  destruct (make_predictor E sd dev); simpl.
  - split; [exists [EvBuild key]; by repeat constructor|].
    intros pred u' [= <- <-]. by rewrite !lookup_insert_eq.
  - split; [exists []; by rewrite app_nil_r | done].
Qed.

(** C3 (amended).  On a miss for a user-supplied checkpoint [p], [get]
    attempts the restricted load first: its first step after the lookup
    is [EvLoadSafe p].  The unrestricted load runs only for a request
    with [allow_unsafe = true], and only after the restricted loader
    rejected the file, that is, raised one of the two exceptions the
    cache catches ([pickle.UnpicklingError] or [RuntimeError]).  When
    the restricted loader rejects the file in that way: with
    [allow_unsafe = false] the call raises the "could not be loaded with
    safe deserialization" error, no unrestricted load is made and the
    cache and the files are unchanged; with [allow_unsafe = true] the
    unrestricted load is made right after, the call succeeds whenever
    that load and the construction of the predictor do, and whenever it
    succeeds the entry stored for the key is flagged as loaded unsafely.
    When the restricted load fails with an exception of any other class,
    the call raises that very exception whatever [allow_unsafe] is: no
    unrestricted load is made and the cache and the files are
    unchanged. *)
Theorem user_checkpoint_safe_first (E : Env) (p : path) (dev : string)
    (allow : bool) (w : world) :
  let key := PredictorCache.key_of (Some p) dev in
  let r := PredictorCache.get E (Some p) dev allow w in
  models w !! key = None →
  (∃ evs, trace (snd r) = trace w ++ EvCacheGet key :: EvLoadSafe p :: evs)
  ∧ (EvLoadUnsafe p ∈ new_events w (snd r) →
       allow = true ∧ ∃ d, fs w !! p = Some (File d) ∧ torch_load_safe E d = Rejected)
  ∧ (∀ d, fs w !! p = Some (File d) → torch_load_safe E d = Rejected →
       if allow then
         (∃ evs, trace (snd r)
                 = trace w ++ [EvCacheGet key; EvLoadSafe p; EvLoadUnsafe p] ++ evs)
         ∧ (∀ sd, torch_load_full E d = Loaded sd → make_predictor E sd dev = Ok () →
              ∃ pred, fst r = Ok (pred, true))
         ∧ (∀ pred u, fst r = Ok (pred, u) →
              u = true ∧ unsafe (snd r) !! key = Some true
              ∧ models (snd r) !! key = Some pred)
       else
         fst r = Raise (ValueError msg_deserialization_rejected)
         ∧ trace (snd r) = trace w ++ [EvCacheGet key; EvLoadSafe p]
         ∧ models (snd r) = models w ∧ unsafe (snd r) = unsafe w
         ∧ fs (snd r) = fs w)
  ∧ (∀ d e, fs w !! p = Some (File d) → torch_load_safe E d = Failed e →
       fst r = Raise e
       ∧ trace (snd r) = trace w ++ [EvCacheGet key; EvLoadSafe p]
       ∧ models (snd r) = models w ∧ unsafe (snd r) = unsafe w
       ∧ fs (snd r) = fs w).
Proof.
  intros key r Hmiss. subst r. rewrite (get_miss_user _ _ _ _ _ Hmiss). fold key.
  set (w0 := logged (EvCacheGet key) w).
  assert (Htr0 : trace w0 = trace w ++ [EvCacheGet key]) by done.
  assert (Hfs0 : fs w0 = fs w) by done.
  pose proof (load_checkpoint_trace E p allow w0) as Hlt.
  pose proof (load_checkpoint_frame E p allow w0) as Hlf.
  rewrite bind_unfold.
  split; [|split; [|split]].
  - destruct (PredictorCache.load_checkpoint E p allow w0) as [[[sd u]|e] w1] eqn:Hl;
      simpl in Hlt.
    + destruct (construct_store_trace E sd dev key u w1) as [(evs & Hevs & _) _].
      rewrite Hevs.
      destruct Hlt as [-> | (-> & _)]; rewrite ?Htr0, <- ?app_assoc; simpl; eauto.
    + simpl. destruct Hlt as [-> | (-> & _)]; rewrite ?Htr0, <- ?app_assoc; simpl; eauto.
  - intros Hin.
    destruct (PredictorCache.load_checkpoint E p allow w0) as [[[sd u]|e] w1] eqn:Hl;
      simpl in Hlt.
    + destruct (construct_store_trace E sd dev key u w1) as [(evs & Hevs & Hall) _].
      destruct Hlt as [Ht | (Ht & -> & d & Hd1 & Hd2)].
      * rewrite (new_events_app w _ ([EvCacheGet key; EvLoadSafe p] ++ evs)) in Hin.
        2:{ rewrite Hevs, Ht, ?Htr0, <- ?app_assoc. done. }
        exfalso. simpl in Hin. rewrite !elem_of_cons in Hin.
        destruct Hin as [?|[?|Hin]]; try done.
        rewrite Forall_forall in Hall. by specialize (Hall _ Hin).
      * split; [done|]. exists d. by rewrite <- Hfs0.
    + simpl in Hin. destruct Hlt as [Ht | (Ht & -> & d & Hd1 & Hd2)].
      * rewrite (new_events_app w _ [EvCacheGet key; EvLoadSafe p]) in Hin.
        2:{ rewrite Ht, ?Htr0, <- ?app_assoc. done. }
        exfalso. rewrite !elem_of_cons in Hin. destruct Hin as [?|[?|Hin]]; try done.
        by apply elem_of_nil in Hin.
      * split; [done|]. exists d. by rewrite <- Hfs0.
  - intros d Hd Hrej. rewrite <- Hfs0 in Hd. destruct allow.
    + rewrite (load_checkpoint_rejected_allowed _ _ _ _ Hd Hrej).
      set (w2 := logged (EvLoadUnsafe p) (logged (EvLoadSafe p) w0)).
      assert (Htr2 : trace w2 = trace w ++ [EvCacheGet key; EvLoadSafe p; EvLoadUnsafe p]).
      { unfold w2. simpl. rewrite <- !app_assoc. done. }
      destruct (torch_load_full E d) as [sd| |e] eqn:Hfull.
      * destruct (construct_store_trace E sd dev key true w2) as [(evs & Hevs & _) Hok].
        split; [|split].
        -- exists evs. by rewrite Hevs, Htr2, <- app_assoc.
        -- intros sd' [= ->] Hmk.
           unfold PredictorCache.construct, PredictorCache.store. munfold.
           rewrite Hmk. eauto.
        -- intros pred u Hr. destruct (Hok pred u Hr) as (-> & ? & ?). done.
      * simpl. split; [exists []; by rewrite <- !app_assoc | done].
      * simpl. split; [exists []; by rewrite <- !app_assoc | done].
    + rewrite (load_checkpoint_rejected_refused _ _ _ _ Hd Hrej).
      simpl. rewrite <- app_assoc. done.
  - intros d e Hd Hfl. rewrite <- Hfs0 in Hd.
    rewrite (load_checkpoint_failed _ _ allow _ _ _ Hd Hfl).
    simpl. rewrite <- app_assoc. done.
Qed.

Lemma user_checkpoint_safe_first_witness :
  let w := {| fs := {[ ["w.pt"] := File (Bytes (content pickled_checkpoint)) ]};
              models := ∅; unsafe := ∅; next_id := 0; trace := [] |} in
  fst (PredictorCache.get sample_env (Some ["w.pt"]) "cpu" false w)
    = Raise (ValueError msg_deserialization_rejected)
  ∧ new_events w (snd (PredictorCache.get sample_env (Some ["w.pt"]) "cpu" false w))
    = [EvCacheGet ("/w.pt", "cpu"); EvLoadSafe ["w.pt"]].
Proof.
  intros w.
  destruct (user_checkpoint_safe_first sample_env ["w.pt"] "cpu" false w)
    as (_ & _ & H & _); [reflexivity|].
  destruct (H (Bytes (content pickled_checkpoint))) as (H1 & H2 & _);
    [reflexivity | reflexivity |].
  split; [exact H1 | by apply new_events_app].
Defined.

(** C3, as worded, does not hold: "if that attempt fails" covers
    failures that [get] does not handle.  The restricted load of a
    truncated checkpoint runs out of input, which is neither of the two
    exceptions of the [except] clause.  With [allow_unsafe = false] the
    call then fails with that error, not with the "could not be loaded
    with safe deserialization" rejection; with [allow_unsafe = true] no
    unrestricted load is attempted and no entry is stored. *)
Lemma safe_load_failure_not_handled :
  let w := {| fs := {[ ["w.pt"] := File (Bytes truncated_checkpoint) ]};
              models := ∅; unsafe := ∅; next_id := 0; trace := [] |} in
  let refused := PredictorCache.get sample_env (Some ["w.pt"]) "cpu" false w in
  let allowed := PredictorCache.get sample_env (Some ["w.pt"]) "cpu" true w in
  torch_load_safe sample_env (Bytes truncated_checkpoint) = Failed (OtherError "EOFError")
  ∧ fst refused = Raise (OtherError "EOFError")
  ∧ fst refused ≠ Raise (ValueError msg_deserialization_rejected)
  ∧ fst allowed = Raise (OtherError "EOFError")
  ∧ new_events w (snd allowed) = [EvCacheGet ("/w.pt", "cpu"); EvLoadSafe ["w.pt"]]
  ∧ (EvLoadUnsafe ["w.pt"] ∉ new_events w (snd allowed))
  ∧ models (snd allowed) = ∅ ∧ unsafe (snd allowed) = ∅.
Proof.
  intros w refused allowed.
  assert (Hev : new_events w (snd allowed)
                = [EvCacheGet ("/w.pt", "cpu"); EvLoadSafe ["w.pt"]]) by reflexivity.
  split; [reflexivity|]. split; [reflexivity|]. split; [discriminate|].
  split; [reflexivity|]. split; [exact Hev|]. split; [|done].
  rewrite Hev. intros Hin. rewrite !elem_of_cons in Hin.
  destruct Hin as [?|[?|Hin]]; try done. by apply elem_of_nil in Hin.
Qed.

(** ** Frames of the monadic steps *)

Lemma frame_ret {A} R `{!Reflexive R} (a : A) : frame R (ret a).
Proof. intros w. simpl. reflexivity. Qed.

Lemma frame_raise {A} R `{!Reflexive R} e : frame R (@raise A e).
Proof. intros w. simpl. reflexivity. Qed.

Lemma frame_get_world R `{!Reflexive R} : frame R get_world.
Proof. intros w. simpl. reflexivity. Qed.

Lemma frame_bind {A B} R `{!Transitive R} (m : M A) (k : A → M B) :
  frame R m → (∀ a, frame R (k a)) → frame R (bind m k).
Proof.
  intros Hm Hk w. rewrite bind_unfold. specialize (Hm w).
  destruct (m w) as [[a|e] w1]; simpl in *; [|done].
  etrans; [exact Hm | apply Hk].
Qed.

Lemma benign_ret {A} (a : A) : benign (ret a).
Proof. intros w e. done. Qed.

Lemma benign_raise {A} what : benign (@raise A (OtherError what)).
Proof. intros w e [= <-]. eauto. Qed.

Lemma benign_bind {A B} (m : M A) (k : A → M B) :
  benign m → (∀ a, benign (k a)) → benign (bind m k).
Proof.
  intros Hm Hk w e. rewrite bind_unfold. specialize (Hm w).
  destruct (m w) as [[a|e'] w1]; simpl in *; [apply Hk|].
  intros [= <-]. by apply Hm.
Qed.

#[global] Instance fs_step_rel_refl : Reflexive fs_step_rel.
Proof.
  intros w. repeat split; try done. exists []. by rewrite app_nil_r.
Qed.

#[global] Instance fs_step_rel_trans : Transitive fs_step_rel.
Proof.
  intros w1 w2 w3 (Hm1 & Hu1 & Hn1 & (e1 & Ht1 & Hf1) & Hd1 & Hs1)
    (Hm2 & Hu2 & Hn2 & (e2 & Ht2 & Hf2) & Hd2 & Hs2).
  repeat split; try congruence; auto.
  exists (e1 ++ e2). split; [by rewrite Ht2, Ht1, app_assoc | by apply Forall_app].
Qed.

#[global] Instance no_new_video_refl : Reflexive no_new_video.
Proof. by intros w p d. Qed.

#[global] Instance no_new_video_trans : Transitive no_new_video.
Proof. intros w1 w2 w3 H1 H2 p d Hv Hp. eauto. Qed.

(** *** [write_file] *)

Lemma write_file_cases p d w :
  (write_file p d w = (Ok (), written p d w)
   ∧ p ≠ [] ∧ is_dir (fs w) (parent p) = true ∧ is_dir (fs w) p = false)
  ∨ (∃ what, write_file p d w = (Raise (OtherError what), w)
     ∧ (p = [] ∨ is_dir (fs w) (parent p) = false ∨ is_dir (fs w) p = true)).
Proof.
  unfold write_file, parent. munfold.
  destruct (reverse p) as [|c rp] eqn:Hrp.
  { right. eexists. split; [done|]. left.
    apply (f_equal reverse) in Hrp. by rewrite reverse_involutive in Hrp. }
  simpl. destruct (is_dir (fs w) (reverse rp)); simpl.
  - destruct (is_dir (fs w) p); simpl.
    + right. eexists. split; [done|]. auto.
    + left. repeat split; try done. intros ->. done.
  - right. eexists. split; [done|]. auto.
Qed.

Lemma is_dir_insert_file f p d q :
  is_dir (<[p := File d]> f) q
  = if decide (q = []) then true else if decide (p = q) then false else is_dir f q.
Proof.
  unfold is_dir. destruct q as [|c q]; [done|]. rewrite decide_False by done.
  rewrite lookup_insert. destruct (decide (p = c :: q)); done.
Qed.

Lemma write_file_fs_step p d : frame fs_step_rel (write_file p d).
Proof.
  intros w. destruct (write_file_cases p d w) as [(-> & Hp & Hpar & Hnd) | (what & -> & _)];
    simpl; [|reflexivity].
  unfold written. repeat split; simpl; try done.
  - exists [EvWrite p]. by repeat constructor.
  - intros q Hq. rewrite lookup_insert. destruct (decide (p = q)) as [->|]; [|done].
    unfold is_dir in Hnd. destruct q; [done|]. by rewrite Hq in Hnd.
  - intros q Hq. rewrite lookup_insert. destruct (decide (p = q)); [by eexists | done].
Qed.

Lemma write_file_benign p d : benign (write_file p d).
Proof.
  intros w e. destruct (write_file_cases p d w) as [(-> & _) | (what & -> & _)];
    simpl; [done|]. intros [= <-]. eauto.
Qed.

Lemma write_file_no_video p d : is_video d = false → frame no_new_video (write_file p d).
Proof.
  intros Hd w. destruct (write_file_cases p d w) as [(-> & _) | (what & -> & _)];
    simpl; [|reflexivity].
  intros q d' Hv. simpl. rewrite lookup_insert. destruct (decide (p = q)); [|done].
  intros [= <-]. congruence.
Qed.

(** *** [mkdir_p] *)

Lemma mkdir_chain_eq_cons p ps w :
  mkdir_chain (p :: ps) w
  = match fs w !! p with
    | Some Dir => mkdir_chain ps w
    | Some (File _) =>
        (Raise (OtherError (match ps with
                            | [] => "FileExistsError"
                            | _ => "NotADirectoryError"
                            end)), w)
    | None => mkdir_chain ps
                {| fs := <[p := Dir]> (fs w); models := models w; unsafe := unsafe w;
                   next_id := next_id w; trace := trace w ++ [EvMkdir p] |}
    end.
Proof. simpl. munfold. destruct (fs w !! p) as [[|d]|]; done. Qed.

Lemma mkdir_chain_fs_step ps : frame fs_step_rel (mkdir_chain ps).
Proof.
  induction ps as [|p ps IH]; intros w; [reflexivity|].
  rewrite mkdir_chain_eq_cons. destruct (fs w !! p) as [[|d]|] eqn:Hp.
  - apply IH.
  - reflexivity.
  - etrans; [|apply IH]. repeat split; simpl; try done.
    + exists [EvMkdir p]. by repeat constructor.
    + intros q Hq. rewrite lookup_insert_ne; [done | congruence].
    + intros q Hq. rewrite lookup_insert. destruct (decide (p = q)); [by eexists | done].
Qed.

Lemma mkdir_chain_benign ps : benign (mkdir_chain ps).
Proof.
  induction ps as [|p ps IH]; intros w e; [done|].
  rewrite mkdir_chain_eq_cons. destruct (fs w !! p) as [[|d]|] eqn:Hp.
  - apply IH.
  - intros [= <-]. eauto.
  - apply IH.
Qed.

Lemma mkdir_chain_no_video ps : frame no_new_video (mkdir_chain ps).
Proof.
  induction ps as [|p ps IH]; intros w; [reflexivity|].
  rewrite mkdir_chain_eq_cons. destruct (fs w !! p) as [[|d]|] eqn:Hp.
  - apply IH.
  - reflexivity.
  - etrans; [|apply IH]. intros q d' Hv. simpl.
    rewrite lookup_insert. destruct (decide (p = q)); done.
Qed.

(** Outside the chain nothing changes. *)
Lemma mkdir_chain_outside ps w q :
  q ∉ ps → fs (snd (mkdir_chain ps w)) !! q = fs w !! q.
Proof.
  revert w. induction ps as [|p ps IH]; intros w Hq; [done|].
  apply not_elem_of_cons in Hq as [Hne Hq].
  rewrite mkdir_chain_eq_cons. destruct (fs w !! p) as [[|d]|] eqn:Hp; try done.
  - by apply IH.
  - rewrite IH by done. simpl. by rewrite lookup_insert_ne.
Qed.

(** After a successful chain every element is a directory. *)
Lemma mkdir_chain_ok ps w w' :
  mkdir_chain ps w = (Ok (), w') → ∀ p, p ∈ ps → fs w' !! p = Some Dir.
Proof.
  revert w. induction ps as [|p ps IH]; intros w Hok q Hq; [by apply elem_of_nil in Hq|].
  rewrite mkdir_chain_eq_cons in Hok.
  pose proof (mkdir_chain_fs_step ps) as Hfr.
  apply elem_of_cons in Hq as [->|Hq].
  - destruct (fs w !! p) as [[|d]|] eqn:Hp; [| done |].
    + specialize (Hfr w). rewrite Hok in Hfr. by apply Hfr.
    + match type of Hok with mkdir_chain ps ?w0 = _ => specialize (Hfr w0) end.
      rewrite Hok in Hfr. apply Hfr. simpl. by rewrite lookup_insert_eq.
  - destruct (fs w !! p) as [[|d]|] eqn:Hp; [| done |]; eapply IH; eauto.
Qed.

Lemma ancestors_from_last base rest :
  rest ≠ [] → base ++ rest ∈ ancestors_from base rest.
Proof.
  revert base. induction rest as [|c rest IH]; intros base Hne; [done|]. simpl.
  destruct rest as [|c' rest]; [left|].
  right. replace (base ++ c :: c' :: rest) with ((base ++ [c]) ++ c' :: rest)
    by (by rewrite <- app_assoc).
  by apply IH.
Qed.

Lemma ancestors_from_prefix base rest q :
  q ∈ ancestors_from base rest →
  ∃ k, k ≠ [] ∧ k `prefix_of` rest ∧ q = base ++ k.
Proof.
  revert base. induction rest as [|c rest IH]; intros base Hq; simpl in Hq.
  { by apply elem_of_nil in Hq. }
  apply elem_of_cons in Hq as [->|Hq].
  - exists [c]. repeat split; [done | by apply prefix_cons, prefix_nil].
  - destruct (IH _ Hq) as (k & Hk & Hpre & ->).
    exists (c :: k). repeat split; [done | by apply prefix_cons | by rewrite <- app_assoc].
Qed.

Lemma mkdir_p_is_dir p w w' : mkdir_p p w = (Ok (), w') → is_dir (fs w') p = true.
Proof.
  intros Hok. unfold is_dir. destruct p as [|c p]; [done|].
  rewrite (mkdir_chain_ok _ _ _ Hok (c :: p)); [done|].
  apply (ancestors_from_last [] (c :: p)). done.
Qed.

(** *** The steps of the pipeline *)

Lemma mkdir_p_fs_step p : frame fs_step_rel (mkdir_p p).
Proof. apply mkdir_chain_fs_step. Qed.

Lemma mkdir_p_benign p : benign (mkdir_p p).
Proof. apply mkdir_chain_benign. Qed.

Lemma mkdir_p_no_video p : frame no_new_video (mkdir_p p).
Proof. apply mkdir_chain_no_video. Qed.

Ltac frame_step :=
  first
    [ apply frame_ret; apply _
    | apply frame_raise; apply _
    | apply frame_get_world; apply _
    | apply write_file_fs_step
    | apply mkdir_p_fs_step
    | apply mkdir_p_no_video
    | apply write_file_no_video; reflexivity
    | apply frame_bind; try apply _; [| intros ?] ].

Ltac benign_step :=
  first
    [ apply benign_ret
    | apply benign_raise
    | apply write_file_benign
    | apply mkdir_p_benign
    | apply benign_bind; [| intros ?] ].

Lemma benign_get_world : benign get_world.
Proof. intros w e. done. Qed.

Section PipelineFrames.
Context (E : Env).

Lemma store_checkpoint_fs_step c root : frame fs_step_rel (store_checkpoint E c root).
Proof.
  unfold store_checkpoint. repeat frame_step.
  destruct (negb _); repeat frame_step.
Qed.

Lemma store_checkpoint_benign c root : benign (store_checkpoint E c root).
Proof.
  unfold store_checkpoint. repeat benign_step; [apply benign_get_world|].
  repeat benign_step. destruct (negb _); repeat benign_step.
Qed.

Lemma store_checkpoint_no_video c root : frame no_new_video (store_checkpoint E c root).
Proof.
  unfold store_checkpoint. repeat frame_step.
  destruct (negb _); repeat frame_step.
Qed.

Lemma write_preview_fs_step img p : frame fs_step_rel (write_preview img p).
Proof. unfold write_preview. repeat frame_step. Qed.

Lemma write_preview_benign img p : benign (write_preview img p).
Proof. unfold write_preview. repeat benign_step. Qed.

Lemma write_preview_no_video img p : frame no_new_video (write_preview img p).
Proof. unfold write_preview. repeat frame_step. Qed.

Lemma run_render_fs_step g p : frame fs_step_rel (run_render E g p).
Proof.
  unfold run_render. destruct (render_gaussians E g) as [[]|]; repeat frame_step.
Qed.

Lemma run_render_benign g p : benign (run_render E g p).
Proof.
  unfold run_render. destruct (render_gaussians E g) as [[]|]; repeat benign_step.
Qed.

Lemma read_image_world p w : snd (read_image E p w) = w.
Proof.
  unfold read_image. munfold. destruct (fs w !! p) as [[|d]|]; try done.
  destruct (load_rgb E d); done.
Qed.

Lemma read_image_frame R `{!Reflexive R} p : frame R (read_image E p).
Proof. intros w. rewrite read_image_world. reflexivity. Qed.

Lemma read_image_benign p : benign (read_image E p).
Proof.
  intros w e. unfold read_image. munfold. destruct (fs w !! p) as [[|d]|].
  - intros [= <-]. eauto.
  - destruct (load_rgb E d); [done|]. intros [= <-]. eauto.
  - intros [= <-]. eauto.
Qed.

Lemma create_bundle_zip_fs_step run_dir bp : frame fs_step_rel (create_bundle_zip run_dir bp).
Proof.
  intros w. unfold create_bundle_zip. rewrite bind_unfold.
  destruct (write_file_cases bp (ZipArchive []) w) as [(-> & Hp & Hpar & Hnd) | (what & -> & _)];
    [|reflexivity].
  munfold. unfold written. repeat split; simpl; try done.
  - exists [EvWrite bp]. by repeat constructor.
  - intros q Hq. rewrite !lookup_insert. destruct (decide (bp = q)) as [->|]; [|done].
    unfold is_dir in Hnd. destruct q; [done|]. by rewrite Hq in Hnd.
  - intros q Hq. rewrite !lookup_insert. destruct (decide (bp = q)); [by eexists | done].
Qed.

Lemma create_bundle_zip_benign run_dir bp : benign (create_bundle_zip run_dir bp).
Proof.
  intros w e. unfold create_bundle_zip. rewrite bind_unfold.
  destruct (write_file_cases bp (ZipArchive []) w) as [(-> & _) | (what & -> & _)].
  - munfold. done.
  - intros [= <-]. eauto.
Qed.

Lemma create_bundle_zip_no_video run_dir bp : frame no_new_video (create_bundle_zip run_dir bp).
Proof.
  intros w. unfold create_bundle_zip. rewrite bind_unfold.
  destruct (write_file_cases bp (ZipArchive []) w) as [(-> & _) | (what & -> & _)];
    [|reflexivity].
  munfold. intros q d Hv. simpl. rewrite !lookup_insert.
  destruct (decide (bp = q)); [|done]. intros [= <-]. done.
Qed.

Lemma process_upload_fs_step pred dev re run_dir i u used :
  frame fs_step_rel (process_upload E pred dev re run_dir i u used).
Proof.
  unfold process_upload. destruct (unique_filename _ _) as [safe_name used'].
  frame_step; [frame_step|]. frame_step; [apply read_image_frame; apply _|].
  frame_step. { destruct (predict_image _ _ _ _); frame_step. }
  frame_step; [frame_step|]. frame_step; [apply write_preview_fs_step|].
  destruct re; [|frame_step].
  frame_step; [apply run_render_fs_step|]. repeat frame_step.
Qed.

Lemma process_upload_benign pred dev re run_dir i u used :
  benign (process_upload E pred dev re run_dir i u used).
Proof.
  unfold process_upload. destruct (unique_filename _ _) as [safe_name used'].
  benign_step; [benign_step|]. benign_step; [apply read_image_benign|].
  benign_step. { destruct (predict_image _ _ _ _); benign_step. }
  benign_step; [benign_step|]. benign_step; [apply write_preview_benign|].
  destruct re; [|benign_step].
  benign_step; [apply run_render_benign|]. benign_step; [apply benign_get_world|].
  benign_step.
Qed.

Lemma process_upload_no_video pred dev run_dir i u used :
  frame no_new_video (process_upload E pred dev false run_dir i u used).
Proof.
  unfold process_upload. destruct (unique_filename _ _) as [safe_name used'].
  frame_step; [frame_step|]. frame_step; [apply read_image_frame; apply _|].
  frame_step. { destruct (predict_image _ _ _ _); frame_step. }
  frame_step; [frame_step|]. frame_step; [apply write_preview_no_video|].
  frame_step.
Qed.

Lemma process_uploads_frame R `{!Reflexive R, !Transitive R} pred dev re run_dir :
  (∀ i u used, frame R (process_upload E pred dev re run_dir i u used)) →
  ∀ ups i used outs, frame R (process_uploads E pred dev re run_dir i ups used outs).
Proof.
  intros Hstep ups. induction ups as [|u ups IH]; intros i used outs; simpl.
  - by apply frame_ret.
  - apply frame_bind; try apply _; [apply Hstep |]. intros [o used']. apply IH.
Qed.

Lemma process_uploads_fs_step pred dev re run_dir ups i used outs :
  frame fs_step_rel (process_uploads E pred dev re run_dir i ups used outs).
Proof. apply process_uploads_frame; try apply _. apply process_upload_fs_step. Qed.

Lemma process_uploads_no_video pred dev run_dir ups i used outs :
  frame no_new_video (process_uploads E pred dev false run_dir i ups used outs).
Proof. apply process_uploads_frame; try apply _. apply process_upload_no_video. Qed.

Lemma process_uploads_benign pred dev re run_dir ups :
  ∀ i used outs, benign (process_uploads E pred dev re run_dir i ups used outs).
Proof.
  induction ups as [|u ups IH]; intros i used outs; simpl.
  - apply benign_ret.
  - apply benign_bind; [apply process_upload_benign|]. intros [o used']. apply IH.
Qed.

End PipelineFrames.

(** ** Outcomes of [PredictorCache.get] *)

Lemma construct_store_cases E sd dev key u w :
  bind (PredictorCache.construct E sd dev)
       (λ predictor, PredictorCache.store key predictor u;; ret (predictor, u)) w
  = (match make_predictor E sd dev with
     | Ok _ =>
         (Ok ({| instance_id := next_id w; weights := sd; on_device := dev |}, u),
          {| fs := fs w;
             models := <[key := {| instance_id := next_id w; weights := sd;
                                   on_device := dev |}]> (models w);
             unsafe := <[key := u]> (unsafe w);
             next_id := S (next_id w);
             trace := trace w ++ [EvBuild key] |})
     | Raise e => (Raise e, w)
     end).
Proof.
  unfold PredictorCache.construct, PredictorCache.store. munfold.
  destruct (make_predictor E sd dev); done.
Qed.

(** The part of [get] that runs on a miss. *)
Lemma get_miss E cp dev allow w :
  models w !! PredictorCache.key_of cp dev = None →
  PredictorCache.get E cp dev allow w
  = bind (match cp with
          | None =>
              log EvDownloadDefault;;
              let* sd := lift (hub_load_default E) in
              ret (sd, false)
          | Some p => PredictorCache.load_checkpoint E p allow
          end)
         (λ '(sd, used_unsafe),
            let* predictor := PredictorCache.construct E sd dev in
            PredictorCache.store (PredictorCache.key_of cp dev) predictor used_unsafe;;
            ret (predictor, used_unsafe))
         (logged (EvCacheGet (PredictorCache.key_of cp dev)) w).
Proof.
  intros Hm. unfold PredictorCache.get. munfold. by rewrite Hm.
Qed.

Lemma loader_frame E cp allow w :
  let m := match cp with
           | None =>
               log EvDownloadDefault;;
               let* sd := lift (hub_load_default E) in
               ret (sd, false)
           | Some p => PredictorCache.load_checkpoint E p allow
           end in
  fs (snd (m w)) = fs w ∧ models (snd (m w)) = models w
  ∧ unsafe (snd (m w)) = unsafe w
  ∧ (∃ evs, trace (snd (m w)) = trace w ++ evs
            ∧ Forall (λ e, is_load_event e = true) evs).
Proof.
  destruct cp as [p|]; simpl.
  - pose proof (load_checkpoint_frame E p allow w) as (? & ? & ? & ?).
    repeat split; try done.
    destruct (load_checkpoint_trace E p allow w) as [-> | (-> & _)];
      eexists; (split; [done|]); by repeat constructor.
  - munfold. destruct (hub_load_default E); simpl; repeat split; try done.
    + exists [EvDownloadDefault]. split; [done|]. by repeat constructor.
    + exists [EvDownloadDefault]. split; [done|]. by repeat constructor.
Qed.

(** Everything [get] can do, in one statement: it never touches the
    files; it logs the lookup, then loader events, then at most one
    completed build, which happens only on a miss, for the requested
    key, and exactly when the call succeeds after a miss; on success the
    entry of the key holds the returned instance and the returned flag;
    on failure the cache is unchanged. *)
Lemma get_spec E cp dev allow w :
  let key := PredictorCache.key_of cp dev in
  let r := PredictorCache.get E cp dev allow w in
  fs (snd r) = fs w
  ∧ (∃ evs bl, trace (snd r) = trace w ++ EvCacheGet key :: evs ++ bl
            ∧ Forall (λ e, is_load_event e = true) evs
            ∧ (bl = [] ∨ (bl = [EvBuild key] ∧ models w !! key = None
                          ∧ is_ok (fst r) = true)))
  ∧ (∀ pred u, fst r = Ok (pred, u) →
       models (snd r) !! key = Some pred
       ∧ default false (unsafe (snd r) !! key) = u)
  ∧ (∀ e, fst r = Raise e →
       models (snd r) = models w ∧ unsafe (snd r) = unsafe w).
Proof.
  intros key r. subst r.
  destruct (models w !! key) as [m|] eqn:Hm.
  - rewrite (get_hit _ _ _ _ _ _ Hm). fold key. simpl.
    split; [done|]. split.
    { exists [], []. repeat split; try done. by left. }
    destruct (default false (unsafe w !! key) && negb allow) eqn:Hgate; simpl.
    + split; [done|]. intros e [= <-]. auto.
    + split; [|done]. intros pred u [= <- <-]. done.
  - rewrite (get_miss _ _ _ _ _ Hm). fold key. rewrite bind_unfold.
    set (w0 := logged (EvCacheGet key) w).
    pose proof (loader_frame E cp allow w0) as (Hfs & Hmo & Hun & (evs & Htr & Hld)).
    cbv zeta in Hfs, Hmo, Hun, Htr.
    destruct (_ w0) as [[[sd u]|e] w1] eqn:Hl; simpl in Hfs, Hmo, Hun, Htr.
    + rewrite construct_store_cases.
      destruct (make_predictor E sd dev); simpl.
      * split; [done|]. split.
        { exists evs, [EvBuild key]. simpl. rewrite Htr, <- !app_assoc. simpl.
          repeat split; try done. right. done. }
        split; [|done]. intros pred u' [= <- <-]. by rewrite !lookup_insert_eq.
      * split; [done|]. split.
        { exists evs, []. simpl. rewrite Htr, <- !app_assoc, app_nil_r. simpl.
          repeat split; try done. by left. }
        split; [done|]. intros e' [= <-]. done.
    + split; [done|]. split.
      { exists evs, []. simpl. rewrite Htr, <- !app_assoc, app_nil_r. simpl.
        repeat split; try done. by left. }
      split; [done|]. intros e' [= <-]. done.
Qed.

(** ** [process_inference], step by step *)

Section Pipeline.
Context (E : Env).

(** The pipeline as the sequence of its outcomes: each step either
    aborts the request with its exception, keeping the effects made so
    far, or hands the state to the next step. *)
Lemma process_inference_steps ups cp req rnd al root clk w :
  ups ≠ [] →
  process_inference E ups cp req rnd al root clk w =
  match resolve_device E req with
  | Raise e =>
      (Raise (match e with ValueError msg => HTTPException 400 msg | _ => e end), w)
  | Ok device =>
    let re := rnd && bool_decide (device = "cuda") && cuda_is_available E in
    let warns := if rnd && negb re then [warn_render_skipped] else [] in
    let run_dir := root </> make_run_id clk in
    match mkdir_p run_dir w with
    | (Raise e, w1) => (Raise e, w1)
    | (Ok _, w1) =>
      match (match cp with
             | Some c => let* p := store_checkpoint E c root in ret (Some p)
             | None => ret None
             end) w1 with
      | (Raise e, w2) => (Raise e, w2)
      | (Ok cpath, w2) =>
        match PredictorCache.get E cpath device al w2 with
        | (Raise e, w3) =>
            (Raise (match e with ValueError msg => HTTPException 400 msg | _ => e end), w3)
        | (Ok (pred, u), w3) =>
          let warns' := if u then warns ++ [warn_unsafe_checkpoint] else warns in
          match process_uploads E pred device re run_dir 1 ups ∅ [] w3 with
          | (Raise e, w4) => (Raise e, w4)
          | (Ok outs, w4) =>
            match write_file (run_dir </> "manifest.json")
                    (ManifestJson
                       {| m_run_id := make_run_id clk; m_device := device;
                          m_render_requested := rnd; m_render_enabled := re;
                          m_outputs := outs; m_warnings := warns';
                          m_created_at := strftime_iso (finished clk) |}) w4 with
            | (Raise e, w5) => (Raise e, w5)
            | (Ok _, w5) =>
              match create_bundle_zip run_dir (run_dir </> "bundle.zip") w5 with
              | (Raise e, w6) => (Raise e, w6)
              | (Ok _, w6) =>
                  (Ok {| r_run_id := make_run_id clk; r_device := device;
                         r_render_requested := rnd; r_render_enabled := re;
                         r_outputs := outs; r_warnings := warns';
                         r_bundle := Path.name (run_dir </> "bundle.zip") |}, w6)
              end
            end
          end
        end
      end
    end
  end.
Proof.
  intros Hne. unfold process_inference.
  rewrite bool_decide_eq_false_2 by done.
  rewrite bind_unfold. unfold value_error_to_400 at 1, lift.
  destruct (resolve_device E req) as [device|[]]; try done.
  cbv zeta. rewrite bind_unfold.
  destruct (mkdir_p (root </> make_run_id clk) w) as [[[]|e] w1]; [|done].
  rewrite bind_unfold.
  destruct cp as [c|].
  - rewrite bind_unfold.
    destruct (store_checkpoint E c root w1) as [[cpath|e] w2]; [|done].
    simpl. rewrite bind_unfold. unfold value_error_to_400.
    destruct (PredictorCache.get E (Some cpath) device al w2) as [[[pred u]|[]] w3];
      try done.
  - simpl. rewrite bind_unfold. unfold value_error_to_400.
    destruct (PredictorCache.get E None device al w1) as [[[pred u]|[]] w3];
      try done.
Qed.

End Pipeline.

(** ** The content-addressed store *)

Lemma path_exists_lookup f p : p ≠ [] → path_exists f p = bool_decide (is_Some (f !! p)).
Proof. by destruct p. Qed.

Lemma path_exists_mono w w' p :
  fs_step_rel w w' → path_exists (fs w) p = true → path_exists (fs w') p = true.
Proof.
  intros (_ & _ & _ & _ & _ & Hex). destruct p as [|c p]; [done|]. simpl.
  rewrite !bool_decide_eq_true. apply Hex.
Qed.

Lemma is_dir_true f p : is_dir f p = true ↔ p = [] ∨ f !! p = Some Dir.
Proof.
  unfold is_dir. destruct p as [|c p]; [by split; [left|]|].
  destruct (f !! _) as [[|d]|]; (split; [try done; by right | by intros [?|?]]).
Qed.

(** Entries that exist are left as they are by [mkdir]. *)
Lemma mkdir_chain_present ps w q :
  is_Some (fs w !! q) → fs (snd (mkdir_chain ps w)) !! q = fs w !! q.
Proof.
  revert w. induction ps as [|p ps IH]; intros w Hq; [done|].
  rewrite mkdir_chain_eq_cons. destruct (fs w !! p) as [[|d]|] eqn:Hp; try done.
  - by apply IH.
  - assert (p ≠ q) by (intros ->; rewrite Hp in Hq; by destruct Hq).
    rewrite IH; simpl; rewrite lookup_insert_ne; done.
Qed.

Lemma mkdir_chain_trace ps w :
  ∃ evs, trace (snd (mkdir_chain ps w)) = trace w ++ evs
         ∧ Forall (λ e, ∃ p, e = EvMkdir p) evs.
Proof.
  revert w. induction ps as [|p ps IH]; intros w.
  { exists []. by rewrite app_nil_r. }
  rewrite mkdir_chain_eq_cons. destruct (fs w !! p) as [[|d]|] eqn:Hp.
  - apply IH.
  - exists []. by rewrite app_nil_r.
  - destruct (IH {| fs := <[p := Dir]> (fs w); models := models w; unsafe := unsafe w;
                    next_id := next_id w; trace := trace w ++ [EvMkdir p] |})
      as (evs & -> & Hall).
    exists (EvMkdir p :: evs). simpl. rewrite <- app_assoc. split; [done|].
    constructor; eauto.
Qed.

Section Store.
Context (E : Env).

Lemma store_checkpoint_spec c root w :
  let cp := checkpoint_path_of E c root in
  let r := store_checkpoint E c root w in
  (∀ p, fst r = Ok p →
     p = cp ∧ path_exists (fs (snd r)) cp = true)
  ∧ (∀ q, q ∉ ancestors_from [] (root </> "_checkpoints") → q ≠ cp →
       fs (snd r) !! q = fs w !! q)
  ∧ (path_exists (fs w) cp = true →
       fs (snd r) !! cp = fs w !! cp
       ∧ writes cp (new_events w (snd r)) = 0)
  ∧ writes cp (new_events w (snd r)) ≤ 1
  ∧ (0 < writes cp (new_events w (snd r)) → path_exists (fs (snd r)) cp = true).
Proof.
  intros cp r. subst r. unfold store_checkpoint. fold (checkpoint_path_of E c root). fold cp.
  rewrite bind_unfold. unfold mkdir_p.
  pose proof (mkdir_chain_fs_step (ancestors_from [] (root </> "_checkpoints")) w) as Hfr.
  pose proof (mkdir_chain_outside (ancestors_from [] (root </> "_checkpoints")) w) as Hout.
  pose proof (mkdir_chain_present (ancestors_from [] (root </> "_checkpoints")) w cp) as Hpres.
  destruct (mkdir_chain_trace (ancestors_from [] (root </> "_checkpoints")) w)
    as (evs & Htr & Hevs).
  assert (Hnw : writes cp evs = 0).
  { unfold writes. clear Htr. induction Hevs as [|e evs [p ->] _ IH]; [done|].
    rewrite filter_cons_False by done. done. }
  assert (Hpres' : path_exists (fs w) cp = true →
                   fs (snd (mkdir_chain (ancestors_from [] (root </> "_checkpoints")) w)) !! cp
                   = fs w !! cp).
  { intros Hex. destruct cp as [|x cp'] eqn:Hcp.
    - apply mkdir_chain_outside. intros (k & Hk & _ & Hq)%ancestors_from_prefix.
      simpl in Hq. by subst k.
    - apply Hpres. simpl in Hex. by apply bool_decide_eq_true in Hex. }
  clear Hpres.
  destruct (mkdir_chain _ w) as [[[]|e] w1]; simpl in *.
  2:{ rewrite (new_events_app _ _ _ Htr).
      split; [done|]. split; [by intros q Hq _; apply Hout|].
      split; [|lia]. intros Hex. split; [by apply Hpres' | done]. }
  munfold.
  destruct (path_exists (fs w1) cp) eqn:Hex; simpl.
  - rewrite (new_events_app _ _ _ Htr).
    split; [by intros p [= <-]|]. split; [by intros q Hq _; apply Hout|].
    split; [|lia]. intros Hex0. split; [by apply Hpres' | done].
  - destruct (write_file_cases cp (Bytes (content c)) w1)
      as [(-> & Hp & Hpar & Hnd) | (what & -> & _)]; simpl.
    + rewrite (new_events_app w _ (evs ++ [EvWrite cp])) by (simpl; by rewrite Htr, <- app_assoc).
      assert (Hw1 : writes cp (evs ++ [EvWrite cp]) = 1).
      { unfold writes in *. rewrite filter_app, length_app, Hnw.
        by rewrite filter_cons_True. }
      assert (Hnow : path_exists (<[cp := File (Bytes (content c))]> (fs w1)) cp = true).
      { rewrite path_exists_lookup by done.
        rewrite bool_decide_eq_true, lookup_insert_eq. by eexists. }
      split; [|split; [|split; [|split; [lia | done]]]].
      * intros p [= <-]. done.
      * intros q Hq Hne. rewrite lookup_insert_ne by done. by apply Hout.
      * intros Hw. apply (path_exists_mono _ _ _ Hfr) in Hw. congruence.
    + rewrite (new_events_app _ _ _ Htr).
      split; [done|]. split; [by intros q Hq _; apply Hout|].
      split; [|lia]. intros Hw. apply (path_exists_mono _ _ _ Hfr) in Hw. congruence.
Qed.

End Store.

(** ** What a request leaves behind *)

Lemma write_file_outside p d w q :
  q ≠ p → fs (snd (write_file p d w)) !! q = fs w !! q.
Proof.
  intros Hne. destruct (write_file_cases p d w) as [(-> & _) | (what & -> & _)];
    simpl; [|done]. by rewrite lookup_insert_ne.
Qed.

Lemma write_file_ok p d w w' :
  write_file p d w = (Ok (), w') → fs w' !! p = Some (File d).
Proof.
  destruct (write_file_cases p d w) as [(-> & _) | (what & -> & _)]; [|done].
  intros [= <-]. simpl. by rewrite lookup_insert_eq.
Qed.

Lemma create_bundle_zip_outside run_dir bp w q :
  q ≠ bp → fs (snd (create_bundle_zip run_dir bp w)) !! q = fs w !! q.
Proof.
  intros Hne. unfold create_bundle_zip. rewrite bind_unfold.
  destruct (write_file_cases bp (ZipArchive []) w) as [(-> & _) | (what & -> & _)];
    [|done].
  munfold. by rewrite !lookup_insert_ne.
Qed.

Section Requests.
Context (E : Env).

(** The identity under which a request asks the cache for its engine. *)
Lemma store_step_spec cp root w :
  let m := match cp with
           | Some c => let* p := store_checkpoint E c root in ret (Some p)
           | None => ret None
           end in
  fs_step_rel w (snd (m w))
  ∧ (∀ e, fst (m w) = Raise e → ∃ what, e = OtherError what)
  ∧ (∀ cpath, fst (m w) = Ok cpath →
       cpath = (λ c, checkpoint_path_of E c root) <$> cp
       ∧ ∀ c, cp = Some c → path_exists (fs (snd (m w))) (checkpoint_path_of E c root) = true).
Proof.
  destruct cp as [c|]; simpl.
  - rewrite bind_unfold.
    pose proof (store_checkpoint_fs_step E c root w) as Hfr.
    pose proof (store_checkpoint_benign E c root w) as Hbn.
    destruct (store_checkpoint_spec E c root w) as (Hok & _).
    destruct (store_checkpoint E c root w) as [[p|e] w1]; simpl in *.
    + split; [done|]. split; [done|]. intros cpath [= <-].
      destruct (Hok p eq_refl) as [-> Hex]. split; [done|]. by intros c' [= <-].
    + split; [done|]. split; [|done]. intros e' [= <-]. by apply Hbn.
  - split; [reflexivity|]. split; [done|]. intros cpath [= <-]. done.
Qed.

(** ** C10: runs on an unsafely loaded engine carry the warning *)

(** C10.  A request that succeeds and whose cache entry (weights
    identity, resolved device) is flagged as loaded unsafely has the
    unsafe-deserialization warning in the warnings it returns, and the
    manifest written into the run directory holds the same warnings.
    This includes a request that only reuses an entry that was already
    cached and flagged: it logs no load and no build, only the lookup
    and its own file-system steps. *)
Theorem unsafe_engine_run_warns (ups : list UploadPayload) (cp : option UploadPayload)
    (req : string) (rnd al : bool) (root : path) (clk : Clock)
    (w w' : world) (res : run_result) :
  process_inference E ups cp req rnd al root clk w = (Ok res, w') →
  let key := PredictorCache.key_of ((λ c, checkpoint_path_of E c root) <$> cp)
               (r_device res) in
  (unsafe w' !! key = Some true → warn_unsafe_checkpoint ∈ r_warnings res)
  ∧ (is_Some (models w !! key) → unsafe w !! key = Some true →
       warn_unsafe_checkpoint ∈ r_warnings res
       ∧ Forall (λ e, is_fs_event e = true ∨ e = EvCacheGet key) (new_events w w'))
  ∧ (∃ mf, fs w' !! (root </> make_run_id clk </> "manifest.json")
             = Some (File (ManifestJson mf))
           ∧ m_warnings mf = r_warnings res).
Proof.
  intros Hrun key.
  destruct (decide (ups = [])) as [->|Hne]; [done|].
  rewrite (process_inference_steps E _ _ _ _ _ _ _ _ Hne) in Hrun.
  remember (make_run_id clk) as rid eqn:Erid in *.
  destruct (resolve_device E req) as [device|e]; [|done].
  cbv zeta in Hrun.
  pose proof (mkdir_p_fs_step (root </> rid) w) as Hfr1.
  destruct (mkdir_p (root </> rid) w) as [[[]|e] w1]; [|done].
  destruct (store_step_spec cp root w1) as (Hfr2 & _ & Hid). cbv zeta in Hfr2, Hid.
  destruct (_ w1) as [[cpath|e] w2]; [|done].
  destruct (Hid cpath eq_refl) as [-> _]. clear Hid. simpl in Hfr1, Hfr2.
  destruct (get_spec E ((λ c, checkpoint_path_of E c root) <$> cp) device al w2)
    as (Hgfs & (evs & bl & Hgtr & Hgev & Hgbl) & Hgok & _).
  cbv zeta in *.
  destruct (PredictorCache.get E _ device al w2) as [[[pred u]|e] w3] eqn:Hget; [|by destruct e].
  destruct (Hgok pred u eq_refl) as [Hmod3 Hflag]. clear Hgok. simpl in *.
  pose proof (process_uploads_fs_step E pred device
                (rnd && bool_decide (device = "cuda") && cuda_is_available E)
                (root </> rid) ups 1 ∅ [] w3) as Hfr4.
  destruct (process_uploads _ _ _ _ _ _ _ _ _ w3) as [[outs|e] w4]; [|done].
  match type of Hrun with context [write_file ?p ?d w4] =>
    pose proof (write_file_fs_step p d w4) as Hfr5;
    pose proof (write_file_ok p d w4) as Hw5;
    destruct (write_file p d w4) as [[[]|e] w5]; [|done]
  end.
  pose proof (create_bundle_zip_fs_step (root </> rid) (root </> rid </> "bundle.zip") w5) as Hfr6.
  pose proof (create_bundle_zip_outside (root </> rid) (root </> rid </> "bundle.zip") w5
                (root </> rid </> "manifest.json")) as Hout6.
  destruct (create_bundle_zip _ _ w5) as [[[]|e] w6]; [|done].
  simpl in *. injection Hrun as <- <-. simpl in key. subst key.
  assert (Hun : unsafe w6 = unsafe w3).
  { destruct Hfr4 as (_ & ? & _), Hfr5 as (_ & ? & _), Hfr6 as (_ & ? & _). congruence. }
  split; [|split].
  - intros Hu. rewrite Hun in Hu. rewrite Hu in Hflag. simpl in Hflag. subst u.
    apply elem_of_app. right. by left.
  - intros Hmod Huns.
    assert (Hmo2 : models w2 = models w).
    { destruct Hfr1 as (? & _), Hfr2 as (? & _). congruence. }
    assert (Hun2 : unsafe w2 = unsafe w).
    { destruct Hfr1 as (_ & ? & _), Hfr2 as (_ & ? & _). congruence. }
    rewrite <- Hmo2 in Hmod. destruct Hmod as [m Hm].
    rewrite (get_hit _ _ _ _ _ _ Hm), Hun2, Huns in Hget. simpl in Hget.
    destruct al; simpl in Hget; [|done]. injection Hget as <- <- <-.
    split; [apply elem_of_app; right; by left|].
    destruct Hfr1 as (_ & _ & _ & (e1 & Ht1 & Hf1) & _),
             Hfr2 as (_ & _ & _ & (e2 & Ht2 & Hf2) & _),
             Hfr4 as (_ & _ & _ & (e4 & Ht4 & Hf4) & _),
             Hfr5 as (_ & _ & _ & (e5 & Ht5 & Hf5) & _),
             Hfr6 as (_ & _ & _ & (e6 & Ht6 & Hf6) & _).
    rewrite (new_events_app w w6
               (e1 ++ e2 ++ [EvCacheGet (PredictorCache.key_of
                  ((λ c, checkpoint_path_of E c root) <$> cp) device)] ++ e4 ++ e5 ++ e6)).
    2:{ rewrite Ht6, Ht5, Ht4. simpl. rewrite Ht2, Ht1, <- !app_assoc. done. }
    rewrite !Forall_app. repeat split;
      try (eapply Forall_impl; [eassumption | by left]).
    constructor; [by right | constructor].
  - eexists. split.
    + rewrite Hout6; [by apply Hw5|].
      rewrite !(joinpath_plain _ "manifest.json"), !(joinpath_plain _ "bundle.zip") by done.
      intros Heq. by apply app_inv_head in Heq.
    + done.
Qed.

(** ** C9: a request rejected by the cache is not rolled back *)

Lemma resolve_device_raises req e :
  resolve_device E req = Raise e →
  e = ValueError "Device must be one of: cpu, cuda, mps, default"
  ∨ e = ValueError "CUDA is not available on this machine."
  ∨ e = ValueError "MPS is not available on this machine.".
Proof.
  unfold resolve_device. destruct (decide (req = "default")).
  { destruct (cuda_is_available E), (mps_is_available E); done. }
  destruct (negb _); [intros [= <-]; auto|].
  destruct (_ && _); [intros [= <-]; auto|].
  destruct (_ && _); [intros [= <-]; auto|]. done.
Qed.

Lemma prefix_same_length {A} (l1 l2 : list A) :
  l1 `prefix_of` l2 → length l2 ≤ length l1 → l1 = l2.
Proof.
  intros [k ->] Hlen. rewrite length_app in Hlen.
  destruct k; [by rewrite app_nil_r | simpl in Hlen; lia].
Qed.

(** C9.  When [process_inference] fails with one of the two rejections
    of the engine cache (HTTP 400 with the "loaded with unsafe
    deserialization" or the "could not be loaded with safe
    deserialization" message), the effects made before the cache was
    asked are still there: the run directory exists, and so does the
    stored checkpoint when a weights upload was present; the cache
    itself is unchanged.  If the run directory was fresh (nothing at or
    below it before the request), it is left empty. *)
Theorem engine_rejection_leaves_run_dir (ups : list UploadPayload)
    (cp : option UploadPayload) (req : string) (rnd al : bool) (root : path)
    (clk : Clock) (w : world) (msg : string) :
  let r := process_inference E ups cp req rnd al root clk w in
  let run_dir := root </> make_run_id clk in
  fst r = Raise (HTTPException 400 msg) →
  msg = msg_unsafe_rejected ∨ msg = msg_deserialization_rejected →
  is_dir (fs (snd r)) run_dir = true
  ∧ (∀ c, cp = Some c → path_exists (fs (snd r)) (checkpoint_path_of E c root) = true)
  ∧ models (snd r) = models w ∧ unsafe (snd r) = unsafe w
  ∧ ((∀ q, run_dir `prefix_of` q → fs w !! q = None) →
     ∀ q, run_dir `prefix_of` q → q ≠ run_dir → fs (snd r) !! q = None).
Proof.
  intros r run_dir Hfail Hmsg. subst r run_dir.
  destruct (run_id_plain clk) as [Hrid Hnck].
  assert (Hdig : ∀ c, cp = Some c →
            is_plain (sha256_hexdigest E (content c) +:+ ".pt") = true)
    by (intros; apply digest_plain).
  assert (Hdistinct : ∀ e what, e = OtherError what → e ≠ HTTPException 400 msg)
    by (intros ?? ->; done).
  destruct (decide (ups = [])) as [->|Hne].
  { simpl in Hfail. injection Hfail as <-. by destruct Hmsg. }
  rewrite (process_inference_steps E _ _ _ _ _ _ _ _ Hne) in Hfail |- *.
  remember (make_run_id clk) as rid eqn:Erid in *.
  destruct (resolve_device E req) as [device|e] eqn:Hdev.
  2:{ apply resolve_device_raises in Hdev as [-> | [-> | ->]];
        simpl in Hfail; injection Hfail as <-; by destruct Hmsg. }
  cbv zeta in Hfail |- *.
  pose proof (mkdir_p_fs_step (root </> rid) w) as Hfr1.
  pose proof (mkdir_p_benign (root </> rid) w) as Hbn1.
  pose proof (mkdir_p_is_dir (root </> rid) w) as Hdir1.
  pose proof (mkdir_chain_outside (ancestors_from [] (root </> rid)) w) as Hout1.
  fold (mkdir_p (root </> rid)) in Hout1.
  destruct (mkdir_p (root </> rid) w) as [[[]|e] w1].
  2:{ simpl in *. destruct (Hbn1 e eq_refl) as [what ->]. done. }
  specialize (Hdir1 w1 eq_refl). clear Hbn1. simpl in Hfr1, Hout1.
  destruct (store_step_spec cp root w1) as (Hfr2 & Hbn2 & Hid). cbv zeta in Hfr2, Hbn2, Hid.
  assert (Hout2 : ∀ c q, cp = Some c →
            q ∉ ancestors_from [] (root </> "_checkpoints") →
            q ≠ checkpoint_path_of E c root →
            fs (snd ((match cp with
                      | Some c => let* p := store_checkpoint E c root in ret (Some p)
                      | None => ret None
                      end) w1)) !! q = fs w1 !! q).
  { intros c q -> Hq1 Hq2. rewrite bind_unfold.
    destruct (store_checkpoint_spec E c root w1) as (_ & Ho & _).
    specialize (Ho q Hq1 Hq2).
    destruct (store_checkpoint E c root w1) as [[p|e] w2]; done. }
  assert (Hnone2 : cp = None →
            fs (snd ((match cp with
                      | Some c => let* p := store_checkpoint E c root in ret (Some p)
                      | None => ret None
                      end) w1)) = fs w1) by (by intros ->).
  destruct (_ w1) as [[cpath|e] w2].
  2:{ simpl in *. destruct (Hbn2 e eq_refl) as [what ->]. done. }
  destruct (Hid cpath eq_refl) as [-> Hex2]. clear Hid Hbn2.
  simpl in Hfr2, Hout2, Hnone2, Hex2.
  destruct (get_spec E ((λ c, checkpoint_path_of E c root) <$> cp) device al w2)
    as (Hgfs & _ & _ & Hgra).
  cbv zeta in Hgfs, Hgra.
  destruct (PredictorCache.get E _ device al w2) as [[[pred u]|e] w3].
  { (* the cache answered: nothing after it raises an HTTP error *)
    exfalso. simpl in Hfail.
    pose proof (process_uploads_benign E pred device
                  (rnd && bool_decide (device = "cuda") && cuda_is_available E)
                  (root </> rid) ups 1 ∅ [] w3) as Hbn4.
    destruct (process_uploads _ _ _ _ _ _ _ _ _ w3) as [[outs|e] w4].
    2:{ simpl in *. destruct (Hbn4 e eq_refl) as [what ->]. done. }
    match type of Hfail with context [write_file ?p ?d w4] =>
      pose proof (write_file_benign p d w4) as Hbn5;
      destruct (write_file p d w4) as [[[]|e] w5]
    end.
    2:{ simpl in *. destruct (Hbn5 e eq_refl) as [what ->]. done. }
    pose proof (create_bundle_zip_benign (root </> rid) (root </> rid </> "bundle.zip") w5)
      as Hbn6.
    destruct (create_bundle_zip _ _ w5) as [[[]|e] w6]; [done|].
    simpl in *. destruct (Hbn6 e eq_refl) as [what ->]. done. }
  simpl in Hgfs, Hgra |- *. destruct (Hgra e eq_refl) as (Hmo3 & Hun3).
  split; [|split; [|split; [|split]]].
  - rewrite is_dir_true in Hdir1 |- *. rewrite Hgfs.
    destruct Hdir1 as [?|Hd]; [by left | right].
    destruct Hfr2 as (_ & _ & _ & _ & Hkeep & _). by apply Hkeep.
  - intros c Hc. unfold path_exists. rewrite Hgfs. by apply Hex2.
  - destruct Hfr1 as (? & _), Hfr2 as (? & _). congruence.
  - destruct Hfr1 as (_ & ? & _), Hfr2 as (_ & ? & _). congruence.
  - intros Hfresh q Hpre Hneq.
    rewrite (joinpath_plain _ rid) in * by done.
    rewrite (joinpath_plain _ "_checkpoints") in * by done.
    assert (Hq1 : q ∉ ancestors_from [] (root ++ [rid])).
    { intros (k & _ & Hk & Hq)%ancestors_from_prefix. simpl in Hq. subst k.
      apply Hneq. symmetry. apply prefix_same_length; [done | by apply prefix_length]. }
    assert (Hlen : length (root ++ [rid]) ≤ length q) by (by apply prefix_length).
    rewrite length_app in Hlen. simpl in Hlen.
    assert (Hq2 : q ∉ ancestors_from [] (root ++ ["_checkpoints"])).
    { intros (k & _ & Hk & Hq)%ancestors_from_prefix. simpl in Hq. subst k.
      assert (q = root ++ ["_checkpoints"]) as ->.
      { apply prefix_same_length; [done | rewrite length_app; simpl; lia]. }
      apply prefix_app_inv in Hpre. apply prefix_cons_inv_1 in Hpre. done. }
    rewrite Hgfs. transitivity (fs w1 !! q).
    2:{ etrans; [apply (Hout1 q Hq1) | by apply Hfresh]. }
    destruct cp as [c|]; [|by rewrite Hnone2].
    apply (Hout2 c q eq_refl Hq2). intros ->.
    unfold checkpoint_path_of in Hpre.
    rewrite (joinpath_plain _ "_checkpoints") in Hpre by done.
    rewrite (joinpath_plain _ (_ +:+ ".pt")) in Hpre by (by apply Hdig).
    rewrite <- app_assoc in Hpre.
    apply prefix_app_inv in Hpre. apply prefix_cons_inv_1 in Hpre. done.
Qed.

End Requests.

Lemma unsafe_engine_run_warns_witness :
  ∃ res w',
    process_inference sample_env [upload "a.png" "img"] (Some pickled_checkpoint)
      "cpu" false true ["out"] sample_clock empty_world = (Ok res, w')
    ∧ warn_unsafe_checkpoint ∈ r_warnings res.
Proof.
  let r := eval vm_compute in
    (process_inference sample_env [upload "a.png" "img"] (Some pickled_checkpoint)
       "cpu" false true ["out"] sample_clock empty_world) in
  match r with
  | (Ok ?res, ?w') =>
      assert (H : process_inference sample_env [upload "a.png" "img"]
                    (Some pickled_checkpoint) "cpu" false true ["out"] sample_clock
                    empty_world = (Ok res, w')) by (vm_compute; reflexivity);
      exists res, w'; split; [exact H|];
      apply (proj1 (unsafe_engine_run_warns sample_env _ _ _ _ _ _ _ _ _ _ H))
  end.
  vm_compute. reflexivity.
Defined.

Lemma engine_rejection_leaves_run_dir_witness :
  let r := process_inference sample_env [upload "a.png" "img"] (Some pickled_checkpoint)
             "cpu" false false ["out"] sample_clock empty_world in
  fst r = Raise (HTTPException 400 msg_deserialization_rejected)
  ∧ is_dir (fs (snd r)) (["out"] </> make_run_id sample_clock) = true
  ∧ path_exists (fs (snd r)) (checkpoint_path_of sample_env pickled_checkpoint ["out"]) = true
  ∧ ∀ q, (["out"] </> make_run_id sample_clock) `prefix_of` q →
         q ≠ ["out"] </> make_run_id sample_clock → fs (snd r) !! q = None.
Proof.
  intros r.
  assert (Hfail : fst r = Raise (HTTPException 400 msg_deserialization_rejected))
    by (vm_compute; reflexivity).
  destruct (engine_rejection_leaves_run_dir sample_env [upload "a.png" "img"]
              (Some pickled_checkpoint) "cpu" false false ["out"] sample_clock
              empty_world msg_deserialization_rejected Hfail)
    as (H1 & H2 & _ & _ & H5); [by right|].
  split; [exact Hfail|]. split; [exact H1|]. split; [by apply H2|].
  apply H5. intros q _. apply lookup_empty.
Defined.

(** ** C8: rendering that cannot run is skipped, not failed *)

Lemma write_file_indep p d d' w :
  (write_file p d w = (Ok (), written p d w)
   ∧ write_file p d' w = (Ok (), written p d' w))
  ∨ (∃ e, write_file p d w = (Raise e, w) ∧ write_file p d' w = (Raise e, w)).
Proof.
  unfold write_file. munfold. destruct (reverse p) as [|c rp]; [right; eauto|]. simpl.
  destruct (is_dir (fs w) (reverse rp)); simpl; [|right; eauto].
  destruct (is_dir (fs w) p); simpl; [right; eauto | by left].
Qed.

Lemma path_exists_insert_file f p d q :
  path_exists (<[p := File d]> f) q
  = if decide (q = []) then true else if decide (p = q) then true else path_exists f q.
Proof.
  unfold path_exists. destruct q as [|c q]; [done|]. rewrite decide_False by done.
  rewrite lookup_insert. destruct (decide (p = c :: q)); [|done].
  apply bool_decide_eq_true. by eexists.
Qed.

Lemma create_bundle_zip_indep run_dir bp mp d d' w :
  let r := create_bundle_zip run_dir bp (written mp d w) in
  let r' := create_bundle_zip run_dir bp (written mp d' w) in
  fst r = fst r' ∧ trace (snd r) = trace (snd r').
Proof.
  unfold create_bundle_zip. rewrite !bind_unfold. unfold write_file. munfold.
  destruct (reverse bp) as [|c rp]; [done|]. simpl.
  rewrite !(is_dir_insert_file _ mp d), !(is_dir_insert_file _ mp d').
  rewrite !(path_exists_insert_file _ mp d), !(path_exists_insert_file _ mp d').
  repeat match goal with
         | |- context [if ?b then _ else _] => destruct b; simpl
         end; done.
Qed.

Section Render.
Context (E : Env).

Lemma process_upload_no_video_entry pred dev run_dir i u used w o used' w' :
  process_upload E pred dev false run_dir i u used w = (Ok (o, used'), w') →
  no_video_entry o.
Proof.
  unfold process_upload. destruct (unique_filename _ _) as [safe_name used0].
  rewrite bind_unfold. destruct (write_file _ _ w) as [[[]|e] w1]; [|done].
  rewrite bind_unfold. destruct (read_image _ _ w1) as [[img|e] w2]; [|done].
  rewrite bind_unfold. destruct (predict_image _ _ _ _) as [g|]; [|done]. simpl.
  rewrite bind_unfold. destruct (write_file _ _ w2) as [[[]|e] w3]; [|done].
  rewrite bind_unfold. destruct (write_preview _ _ w3) as [[[]|e] w4]; [|done].
  intros [= <- _ _]. done.
Qed.

Lemma process_uploads_no_video_entries pred dev run_dir ups :
  ∀ i used outs0 w outs w',
    process_uploads E pred dev false run_dir i ups used outs0 w = (Ok outs, w') →
    Forall no_video_entry outs0 → Forall no_video_entry outs.
Proof.
  induction ups as [|u ups IH]; intros i used outs0 w outs w'; simpl.
  - by intros [= <- _].
  - rewrite bind_unfold.
    destruct (process_upload _ _ _ _ _ _ _ _ w) as [[[o used']|e] w1] eqn:Hstep; [|done].
    intros Hrest Hall. eapply IH; [exact Hrest|].
    apply Forall_app. split; [done|]. constructor; [|done].
    eapply process_upload_no_video_entry, Hstep.
Qed.

(** C8.  When the resolved device is not CUDA, a request that asks for
    rendering is served exactly like the same request without it: it
    fails if and only if that one fails, with the same exception, and it
    performs the same steps.  When it succeeds, [render_enabled] is
    false, the "Rendering requires CUDA" warning is among the warnings,
    no output entry has a video or depth video, and no video file was
    written. *)
Theorem render_ineligible_is_skipped (ups : list UploadPayload)
    (cp : option UploadPayload) (req : string) (al : bool) (root : path)
    (clk : Clock) (w : world) :
  resolve_device E req ≠ Ok "cuda" →
  let rt := process_inference E ups cp req true al root clk w in
  let rf := process_inference E ups cp req false al root clk w in
  (∀ e, fst rt = Raise e ↔ fst rf = Raise e)
  ∧ is_ok (fst rt) = is_ok (fst rf)
  ∧ trace (snd rt) = trace (snd rf)
  ∧ no_new_video w (snd rt)
  ∧ (∀ res, fst rt = Ok res →
       r_render_requested res = true ∧ r_render_enabled res = false
       ∧ warn_render_skipped ∈ r_warnings res
       ∧ Forall no_video_entry (r_outputs res)).
Proof.
  intros Hdev rt rf. subst rt rf.
  destruct (decide (ups = [])) as [->|Hne].
  { simpl. repeat split; try done. }
  rewrite !(process_inference_steps E _ _ _ _ _ _ _ _ Hne).
  remember (make_run_id clk) as rid eqn:Erid in *.
  destruct (resolve_device E req) as [device|e]; [|by repeat split].
  assert (bool_decide (device = "cuda") = false) as Hnc
    by (apply bool_decide_eq_false; congruence).
  cbv zeta. rewrite Hnc. simpl.
  pose proof (mkdir_p_no_video (root </> rid) w) as Hv1.
  destruct (mkdir_p (root </> rid) w) as [[[]|e] w1]; [|by repeat split].
  assert (Hv2 : no_new_video w1
            (snd ((match cp with
                   | Some c => let* p := store_checkpoint E c root in ret (Some p)
                   | None => ret None
                   end) w1))).
  { destruct cp as [c|]; [|reflexivity]. rewrite bind_unfold.
    pose proof (store_checkpoint_no_video E c root w1) as Hs.
    destruct (store_checkpoint E c root w1) as [[p|e] w2]; done. }
  destruct (_ w1) as [[cpath|e] w2].
  2:{ simpl in *. repeat split; try done. by etrans. }
  destruct (get_spec E cpath device al w2) as (Hgfs & _).
  cbv zeta in Hgfs.
  assert (Hv3 : no_new_video w2 (snd (PredictorCache.get E cpath device al w2))).
  { intros p d _. by rewrite Hgfs. }
  simpl in Hv1, Hv2.
  destruct (PredictorCache.get E cpath device al w2) as [[[pred u]|e] w3].
  2:{ simpl in *. repeat split; try done. by do 2 (etrans; [eassumption|]). }
  pose proof (process_uploads_no_video E pred device (root </> rid) ups 1 ∅ [] w3) as Hv4.
  pose proof (process_uploads_no_video_entries pred device (root </> rid) ups 1 ∅ [] w3)
    as Hents.
  simpl in Hv3.
  assert (Hv03 : no_new_video w w3) by (by do 2 (etrans; [eassumption|])).
  destruct (process_uploads E pred device false _ 1 ups ∅ [] w3) as [[outs|e] w4].
  2:{ simpl in *. repeat split; try done. by etrans. }
  specialize (Hents outs w4 eq_refl (Forall_nil_2 _)). simpl in Hv4.
  assert (Hv04 : no_new_video w w4) by (by etrans).
  match goal with
  | |- context [write_file ?p (ManifestJson ?d) w4] =>
      match goal with
      | |- context [write_file p (ManifestJson ?d') w4] =>
          lazymatch d with
          | d' => fail
          | _ => destruct (write_file_indep p (ManifestJson d) (ManifestJson d') w4)
                   as [[-> ->] | (e & -> & ->)];
                 [pose proof (create_bundle_zip_indep (root </> rid)
                                (root </> rid </> "bundle.zip") p
                                (ManifestJson d) (ManifestJson d') w4) as [Hb1 Hb2];
                  pose proof (create_bundle_zip_no_video (root </> rid)
                                (root </> rid </> "bundle.zip")
                                (written p (ManifestJson d) w4)) as Hv6;
                  assert (Hv5 : no_new_video w4 (written p (ManifestJson d) w4))
                 | by repeat split]
          end
      end
  end.
  { intros q d0 Hvid. simpl. rewrite lookup_insert. destruct (decide (_ = q)); [|done].
    intros [= <-]. done. }
  cbv zeta in Hb1, Hb2.
  destruct (create_bundle_zip _ _ (written _ (ManifestJson _) w4)) as [[[]|e1] w6];
    destruct (create_bundle_zip _ _ (written _ (ManifestJson _) w4)) as [[[]|e2] w6'];
    simpl in *; try done.
  - split; [done|]. split; [done|]. split; [done|].
    split; [by do 2 (etrans; [eassumption|])|].
    intros res [= <-]. simpl. split; [done|]. split; [done|]. split; [|done].
    destruct u; by left.
  - injection Hb1 as ->. split; [done|]. split; [done|]. split; [done|].
    split; [by do 2 (etrans; [eassumption|]) | done].
Qed.

End Render.

Lemma render_ineligible_is_skipped_witness :
  let rt := process_inference sample_env [upload "a.png" "img"] None "cpu" true false
              ["out"] sample_clock empty_world in
  let rf := process_inference sample_env [upload "a.png" "img"] None "cpu" false false
              ["out"] sample_clock empty_world in
  is_ok (fst rt) = is_ok (fst rf) ∧ trace (snd rt) = trace (snd rf)
  ∧ no_new_video empty_world (snd rt).
Proof.
  intros rt rf.
  destruct (render_ineligible_is_skipped sample_env [upload "a.png" "img"] None "cpu"
              false ["out"] sample_clock empty_world) as (_ & H2 & H3 & H4 & _).
  - vm_compute. discriminate.
  - exact (conj H2 (conj H3 H4)).
Defined.

(** ** Run artifacts stay inside the run directory *)

Lemma writes_app p e1 e2 : writes p (e1 ++ e2) = writes p e1 + writes p e2.
Proof. unfold writes. by rewrite filter_app, length_app. Qed.

Lemma builds_app k e1 e2 : builds k (e1 ++ e2) = builds k e1 + builds k e2.
Proof. unfold builds. by rewrite filter_app, length_app. Qed.

Lemma writes_0_iff p evs : writes p evs = 0 ↔ EvWrite p ∉ evs.
Proof.
  unfold writes. rewrite length_zero_iff_nil. split.
  - intros Hnil Hin. assert (EvWrite p ∈ filter (λ e, e = EvWrite p) evs) as Hf
      by (by apply list_elem_of_filter).
    rewrite Hnil in Hf. by apply elem_of_nil in Hf.
  - intros Hnin. apply elem_of_nil_inv. intros e [-> He]%list_elem_of_filter. done.
Qed.

Lemma builds_0_iff k evs : builds k evs = 0 ↔ EvBuild k ∉ evs.
Proof.
  unfold builds. rewrite length_zero_iff_nil. split.
  - intros Hnil Hin. assert (EvBuild k ∈ filter (λ e, e = EvBuild k) evs) as Hf
      by (by apply list_elem_of_filter).
    rewrite Hnil in Hf. by apply elem_of_nil in Hf.
  - intros Hnin. apply elem_of_nil_inv. intros e [-> He]%list_elem_of_filter. done.
Qed.

#[global] Instance avoids_refl p : Reflexive (avoids p).
Proof. intros w. exists []. by rewrite app_nil_r. Qed.

#[global] Instance avoids_trans p : Transitive (avoids p).
Proof.
  intros w1 w2 w3 (e1 & Ht1 & H1) (e2 & Ht2 & H2). exists (e1 ++ e2).
  split; [by rewrite Ht2, Ht1, app_assoc | rewrite writes_app; lia].
Qed.

Lemma write_file_avoids p d q : p ≠ q → frame (avoids q) (write_file p d).
Proof.
  intros Hne w. destruct (write_file_cases p d w) as [(-> & _) | (what & -> & _)];
    simpl; [|reflexivity].
  exists [EvWrite p]. split; [done|]. apply writes_0_iff.
  intros [= ->]%list_elem_of_singleton. done.
Qed.

Lemma mkdir_p_avoids p q : frame (avoids q) (mkdir_p p).
Proof.
  intros w. destruct (mkdir_chain_trace (ancestors_from [] p) w) as (evs & Htr & Hall).
  exists evs. split; [done|]. apply writes_0_iff. intros Hin.
  rewrite Forall_forall in Hall. by destruct (Hall _ Hin).
Qed.

Lemma with_suffix_snoc p nm sfx :
  Path.with_suffix (p ++ [nm]) sfx = p ++ [Path.stem nm +:+ sfx].
Proof. unfold Path.with_suffix. by rewrite reverse_snoc, reverse_involutive. Qed.

Lemma parent_snoc p nm : parent (p ++ [nm]) = p.
Proof. unfold parent. by rewrite reverse_snoc; simpl; rewrite reverse_involutive. Qed.

Lemma snoc_outside (rd q : path) (nm : string) :
  ¬ rd `prefix_of` q → rd ++ [nm] ≠ q.
Proof. intros Hq <-. apply Hq. by apply prefix_app_r. Qed.

Section Inside.
Context (E : Env) (run_dir cpth : path).
Hypothesis Hout : ¬ run_dir `prefix_of` cpth.

Lemma run_render_avoids g stem :
  no_slash stem → frame (avoids cpth) (run_render E g (run_dir </> (stem +:+ ".mp4"))).
Proof.
  intros Hs. unfold run_render.
  assert (Hj : run_dir </> (stem +:+ ".mp4") = run_dir ++ [stem +:+ ".mp4"]).
  { apply (joinpath_component _ _ "m"%char); [by rewrite mem_char_app, Hs | | done].
    rewrite mem_char_app. apply orb_true_intro. by right. }
  rewrite Hj, with_suffix_snoc.
  destruct (render_gaussians E g) as [[]|]; [| |apply frame_raise; apply _].
  - apply frame_bind; try apply _; [apply write_file_avoids, snoc_outside, Hout|].
    intros _. apply write_file_avoids, snoc_outside, Hout.
  - apply frame_bind; try apply _; [apply write_file_avoids, snoc_outside, Hout|].
    intros _. apply frame_ret. apply _.
Qed.

Lemma process_upload_avoids pred dev re i u used :
  frame (avoids cpth) (process_upload E pred dev re run_dir i u used).
Proof.
  unfold process_upload.
  pose proof (unique_filename_no_slash (safe_filename (filename u)) used
                (safe_filename_no_slash _)) as Hsafe.
  destruct (unique_filename _ _) as [safe_name used']. simpl in Hsafe.
  assert (Hstem := stem_no_slash _ (name_of_str_no_slash _ Hsafe)).
  set (stem := Path.stem (Path.name_of_str safe_name)) in *.
  assert (Hin : run_dir </> (Str.fmt_02d i +:+ "_" +:+ safe_name)
                = run_dir ++ [Str.fmt_02d i +:+ "_" +:+ safe_name]).
  { apply (joinpath_component _ _ "_"%char); [| | done].
    - rewrite !mem_char_app, fmt_02d_no_slash, Hsafe. done.
    - rewrite !mem_char_app. apply orb_true_intro. right. done. }
  assert (Hply : run_dir </> (stem +:+ ".ply") = run_dir ++ [stem +:+ ".ply"]).
  { apply (joinpath_component _ _ "p"%char); [by rewrite mem_char_app, Hstem | | done].
    rewrite mem_char_app. apply orb_true_intro. by right. }
  assert (Hpre : run_dir </> (stem +:+ ".preview.jpg") = run_dir ++ [stem +:+ ".preview.jpg"]).
  { apply (joinpath_component _ _ "p"%char); [by rewrite mem_char_app, Hstem | | done].
    rewrite mem_char_app. apply orb_true_intro. by right. }
  rewrite Hin, Hply, Hpre.
  apply frame_bind; try apply _; [apply write_file_avoids, snoc_outside, Hout|]. intros _.
  apply frame_bind; try apply _; [apply read_image_frame; apply _|]. intros img.
  apply frame_bind; try apply _.
  { destruct (predict_image _ _ _ _); [apply frame_ret | apply frame_raise]; apply _. }
  intros g.
  apply frame_bind; try apply _; [apply write_file_avoids, snoc_outside, Hout|]. intros _.
  apply frame_bind; try apply _.
  { unfold write_preview. apply frame_bind; try apply _; [apply mkdir_p_avoids|].
    intros _. apply write_file_avoids, snoc_outside, Hout. }
  intros _. destruct re; [|apply frame_ret; apply _].
  apply frame_bind; try apply _; [by apply run_render_avoids|]. intros _.
  apply frame_bind; try apply _; [apply frame_get_world; apply _|]. intros w'.
  apply frame_ret. apply _.
Qed.

Lemma process_uploads_avoids pred dev re ups i used outs :
  frame (avoids cpth) (process_uploads E pred dev re run_dir i ups used outs).
Proof. apply process_uploads_frame; try apply _. apply process_upload_avoids. Qed.

Lemma create_bundle_zip_avoids bp :
  bp ≠ cpth → frame (avoids cpth) (create_bundle_zip run_dir bp).
Proof.
  intros Hne w. unfold create_bundle_zip. rewrite bind_unfold.
  pose proof (write_file_avoids bp (ZipArchive []) cpth Hne w) as Hw.
  destruct (write_file bp (ZipArchive []) w) as [[[]|e] w1]; [|done].
  munfold. done.
Qed.

End Inside.

(** ** C5: byte-identical weights share one stored file and one engine *)

#[global] Instance engine_rel_refl cpth : Reflexive (engine_rel cpth).
Proof.
  intros w. exists []. rewrite app_nil_r. unfold writes, builds. simpl.
  split; [done|]. split; [by intros k Hk; apply elem_of_nil in Hk|].
  split; [lia|]. split; [done|]. split; [intros [?|?]; [done | lia]|].
  split; [intros; lia|]. split; [done|]. intros k [?|?]; [done | lia].
Qed.

#[global] Instance engine_rel_trans cpth : Transitive (engine_rel cpth).
Proof.
  intros w1 w2 w3 (e1 & Ht1 & Hg1 & Hw1 & Hwe1 & Hex1 & Hb1 & Hbc1 & Hm1)
    (e2 & Ht2 & Hg2 & Hw2 & Hwe2 & Hex2 & Hb2 & Hbc2 & Hm2).
  exists (e1 ++ e2). split; [by rewrite Ht2, Ht1, app_assoc|].
  split; [by intros k [?|?]%elem_of_app; auto|].
  rewrite writes_app.
  assert (0 < writes cpth e1 → writes cpth e2 = 0) by (by intros; apply Hwe2, Hex1; right).
  split; [destruct (writes cpth e1); [lia | assert (writes cpth e2 = 0) by (apply H; lia); lia]|].
  split.
  { intros Hex. rewrite (Hwe1 Hex), (Hwe2 (Hex1 (or_introl Hex))). done. }
  split.
  { intros [Hex|Hpos]; apply Hex2.
    - left. apply Hex1. by left.
    - destruct (writes cpth e1) eqn:Hn1; [right; lia | left; apply Hex1; right; lia]. }
  assert (Hb12 : ∀ k, 0 < builds k e1 → builds k e2 = 0)
    by (by intros k ?; apply Hbc2, Hm1; right).
  split.
  { intros k. rewrite builds_app. specialize (Hb1 k). specialize (Hb2 k).
    destruct (builds k e1) eqn:Hn1; [lia|]. rewrite Hb12 by lia. lia. }
  split.
  { intros k Hk. rewrite builds_app, (Hbc1 k Hk), (Hbc2 k (Hm1 k (or_introl Hk))). done. }
  intros k [Hk|Hpos]; apply Hm2.
  - left. apply Hm1. by left.
  - rewrite builds_app in Hpos.
    destruct (builds k e1) eqn:Hn1; [right; lia | left; apply Hm1; right; lia].
Qed.

(** A file-system step that does not write the checkpoint file. *)
Lemma fs_step_engine cpth w w' :
  fs_step_rel w w' → avoids cpth w w' → engine_rel cpth w w'.
Proof.
  intros Hfs (evs & Htr & Hav).
  pose proof (path_exists_mono w w' cpth Hfs) as Hex.
  destruct Hfs as (Hmo & _ & _ & (evs' & Htr' & Hall) & _).
  assert (evs' = evs) as -> by (rewrite Htr in Htr'; by apply app_inv_head in Htr').
  rewrite Forall_forall in Hall.
  assert (Hnb : ∀ k, builds k evs = 0).
  { intros k. apply builds_0_iff. intros Hin. by specialize (Hall _ Hin). }
  exists evs. split; [done|].
  split; [by intros k Hin; specialize (Hall _ Hin)|].
  split; [lia|]. split; [done|].
  split; [intros [?|?]; [auto | lia]|].
  split; [intros k; rewrite Hnb; lia|]. split; [done|].
  intros k [?|Hpos]; [by rewrite Hmo | rewrite Hnb in Hpos; lia].
Qed.

Section Sharing.
Context (E : Env).

Lemma store_checkpoint_engine c root w :
  engine_rel (checkpoint_path_of E c root) w (snd (store_checkpoint E c root w)).
Proof.
  pose proof (store_checkpoint_fs_step E c root w) as Hfs.
  destruct (store_checkpoint_spec E c root w) as (_ & _ & Hdedup & Hle & Hwr).
  pose proof (path_exists_mono _ _ (checkpoint_path_of E c root) Hfs) as Hex.
  destruct Hfs as (Hmo & _ & _ & (evs & Htr & Hall) & _).
  rewrite (new_events_app _ _ _ Htr) in Hdedup, Hle, Hwr.
  rewrite Forall_forall in Hall.
  assert (Hnb : ∀ k, builds k evs = 0).
  { intros k. apply builds_0_iff. intros Hin. by specialize (Hall _ Hin). }
  exists evs. split; [done|].
  split; [by intros k Hin; specialize (Hall _ Hin)|].
  split; [done|]. split; [by intros Hx; apply Hdedup|].
  split; [intros [?|?]; auto|].
  split; [intros k; rewrite Hnb; lia|]. split; [done|].
  intros k [?|Hpos]; [by rewrite Hmo | rewrite Hnb in Hpos; lia].
Qed.

Lemma get_engine cpth dev al w :
  engine_rel cpth w (snd (PredictorCache.get E (Some cpth) dev al w)).
Proof.
  destruct (get_spec E (Some cpth) dev al w)
    as (Hfs & (evs & bl & Htr & Hld & Hbl) & Hok & _).
  cbv zeta in *.
  set (key := PredictorCache.key_of (Some cpth) dev) in *.
  rewrite Forall_forall in Hld.
  assert (Hnw : writes cpth (EvCacheGet key :: evs ++ bl) = 0).
  { apply writes_0_iff. intros [?|[Hin|Hin]%elem_of_app]%elem_of_cons; [done | |].
    - by specialize (Hld _ Hin).
    - destruct Hbl as [->|(-> & _)]; [by apply elem_of_nil in Hin|].
      by apply list_elem_of_singleton in Hin. }
  assert (Hbk : ∀ k, builds k (EvCacheGet key :: evs ++ bl) = builds k bl).
  { intros k. change (EvCacheGet key :: evs ++ bl) with ([EvCacheGet key] ++ evs ++ bl).
    rewrite !builds_app.
    assert (builds k [EvCacheGet key] = 0) as -> by done.
    assert (builds k evs = 0) as ->; [|done].
    apply builds_0_iff. intros Hin. by specialize (Hld _ Hin). }
  exists (EvCacheGet key :: evs ++ bl). split; [done|].
  split.
  { intros k [[= ->]|[Hin|Hin]%elem_of_app]%elem_of_cons; [done | |].
    - by specialize (Hld _ Hin).
    - destruct Hbl as [->|(-> & _)]; [by apply elem_of_nil in Hin|].
      by apply list_elem_of_singleton in Hin. }
  split; [lia|]. split; [done|].
  split; [intros [Hx|?]; [unfold path_exists in *; by rewrite Hfs | lia]|].
  split.
  { intros k. rewrite Hbk. unfold builds.
    destruct Hbl as [->|(-> & _)]; [simpl; lia|].
    destruct (decide (EvBuild key = EvBuild k)).
    - rewrite filter_cons_True by done. simpl. lia.
    - rewrite filter_cons_False by done. simpl. lia. }
  split.
  { intros k Hk. rewrite Hbk. unfold builds.
    destruct Hbl as [->|(-> & Hmiss & _)]; [done|].
    rewrite filter_cons_False; [done|].
    intros [= <-]. rewrite Hmiss in Hk. by destruct Hk. }
  intros k [[m Hk]|Hpos].
  - destruct (get_keeps_entries E (Some cpth) dev al w k m Hk) as [-> _]. by eexists.
  - rewrite Hbk in Hpos. unfold builds in Hpos.
    destruct Hbl as [->|(-> & _ & Hisok)]; [simpl in Hpos; lia|].
    destruct (decide (EvBuild key = EvBuild k)) as [[= <-]|].
    + destruct (PredictorCache.get E (Some cpth) dev al w) as [[[pred u]|e] w'];
        [|done]. destruct (Hok pred u eq_refl) as [-> _]. by eexists.
    + rewrite filter_cons_False in Hpos by done. simpl in Hpos. lia.
Qed.

(** A whole request, as a step on the checkpoint file and the cache. *)
Lemma process_inference_engine ups c req rnd al root clk :
  frame (engine_rel (checkpoint_path_of E c root))
        (process_inference E ups (Some c) req rnd al root clk).
Proof.
  intros w. destruct (run_id_plain clk) as [Hrid Hnck].
  pose proof (digest_plain E (content c)) as Hdig.
  set (cpth := checkpoint_path_of E c root).
  destruct (decide (ups = [])) as [->|Hne]; [reflexivity|].
  rewrite (process_inference_steps E _ _ _ _ _ _ _ _ Hne).
  remember (make_run_id clk) as rid eqn:Erid in *.
  destruct (resolve_device E req) as [device|e]; [|reflexivity].
  cbv zeta.
  assert (Hout : ¬ (root </> rid) `prefix_of` cpth).
  { unfold cpth, checkpoint_path_of.
    rewrite (joinpath_plain _ rid), (joinpath_plain _ "_checkpoints") by done.
    rewrite (joinpath_plain _ (_ +:+ ".pt")) by done.
    rewrite <- app_assoc. intros Hpre%prefix_app_inv. apply prefix_cons_inv_1 in Hpre. done. }
  assert (H1 : engine_rel cpth w (snd (mkdir_p (root </> rid) w))).
  { apply fs_step_engine; [apply mkdir_p_fs_step | apply mkdir_p_avoids]. }
  destruct (mkdir_p (root </> rid) w) as [[[]|e] w1]; [|done]. simpl in H1.
  rewrite bind_unfold.
  pose proof (store_checkpoint_engine c root w1) as H2. fold cpth in H2.
  destruct (store_checkpoint_spec E c root w1) as (Hpath & _).
  destruct (store_checkpoint E c root w1) as [[p|e] w2]; simpl in *; [|by etrans].
  destruct (Hpath p eq_refl) as [-> _]. fold cpth.
  pose proof (get_engine cpth device al w2) as H3.
  destruct (PredictorCache.get E (Some cpth) device al w2) as [[[pred u]|e] w3];
    simpl in H3; [|by do 2 (etrans; [eassumption|])].
  assert (H03 : engine_rel cpth w w3) by (by do 2 (etrans; [eassumption|])).
  match goal with
  | |- context [process_uploads E pred device ?re ?rd 1 ups ∅ [] w3] =>
      assert (H4 : engine_rel cpth w3 (snd (process_uploads E pred device re rd 1 ups ∅ [] w3)))
        by (apply fs_step_engine;
              [apply process_uploads_fs_step | by apply process_uploads_avoids]);
      destruct (process_uploads E pred device re rd 1 ups ∅ [] w3) as [[outs|e] w4];
        simpl in H4; [|by etrans]
  end.
  assert (H04 : engine_rel cpth w w4) by (by etrans).
  match goal with
  | |- context [write_file ?p ?d w4] =>
      assert (H5 : engine_rel cpth w4 (snd (write_file p d w4)));
        [|destruct (write_file p d w4) as [[[]|e] w5]; simpl in H5; [|by etrans]]
  end.
  { apply fs_step_engine; [apply write_file_fs_step|].
    apply write_file_avoids. rewrite (joinpath_plain _ "manifest.json") by done.
    by apply snoc_outside. }
  assert (H05 : engine_rel cpth w w5) by (by etrans).
  assert (H6 : engine_rel cpth w5
                 (snd (create_bundle_zip (root </> rid) (root </> rid </> "bundle.zip") w5))).
  { apply fs_step_engine; [apply create_bundle_zip_fs_step|].
    apply create_bundle_zip_avoids. rewrite (joinpath_plain _ "bundle.zip") by done.
    by apply snoc_outside. }
  destruct (create_bundle_zip _ _ w5) as [[[]|e] w6]; simpl in *; by etrans.
Qed.

End Sharing.

(** The literal reading of C5 fails: the store is rooted in the output
    root of the request.  Two requests with the same weights bytes, one
    before and one after the output folder was changed from [/out1] to
    [/out2], get two different checkpoint paths, and the engine is built
    twice. *)
Lemma identical_weights_two_roots_two_loads :
  let c := upload "weights.pt" "weights" in
  let w1 := snd (process_inference sample_env [upload "a.png" "img"] (Some c) "cpu"
                   false false ["out1"] sample_clock empty_world) in
  let w2 := snd (process_inference sample_env [upload "a.png" "img"] (Some c) "cpu"
                   false false ["out2"] sample_clock_2 w1) in
  checkpoint_path_of sample_env c ["out1"] ≠ checkpoint_path_of sample_env c ["out2"]
  ∧ filter (λ e, is_build_event e = true) (trace w2)
    = [EvBuild ("/out1/_checkpoints/77656967687473.pt", "cpu");
       EvBuild ("/out2/_checkpoints/77656967687473.pt", "cpu")].
Proof. split; [by vm_compute | vm_compute; reflexivity]. Qed.

(** C5 (amended).  Two requests served from the same output root, one
    after the other, with byte-identical weights uploads: the store
    gives both the same checkpoint path; every cache lookup they make is
    for the identity of that path; the digest-named file is written at
    most once across the two requests, and not at all if it existed
    before; and for every cache key at most one engine build completes
    across the two requests. *)
Theorem identical_weights_share_engine (E : Env) (ups1 ups2 : list UploadPayload)
    (c1 c2 : UploadPayload) (req1 req2 : string) (rnd1 rnd2 al1 al2 : bool)
    (root : path) (clk1 clk2 : Clock) (w : world) :
  content c1 = content c2 →
  let cpth := checkpoint_path_of E c1 root in
  let r1 := process_inference E ups1 (Some c1) req1 rnd1 al1 root clk1 w in
  let r2 := process_inference E ups2 (Some c2) req2 rnd2 al2 root clk2 (snd r1) in
  let evs := new_events w (snd r2) in
  checkpoint_path_of E c2 root = cpth
  ∧ (∀ k, EvCacheGet k ∈ evs → k.1 = Path.str cpth)
  ∧ writes cpth evs ≤ 1
  ∧ (path_exists (fs w) cpth = true → writes cpth evs = 0)
  ∧ (∀ k, builds k evs ≤ 1).
Proof.
  intros Hc cpth r1 r2 evs.
  assert (Hsame : checkpoint_path_of E c2 root = cpth)
    by (unfold cpth, checkpoint_path_of; by rewrite Hc).
  pose proof (process_inference_engine E ups1 c1 req1 rnd1 al1 root clk1 w) as H1.
  pose proof (process_inference_engine E ups2 c2 req2 rnd2 al2 root clk2 (snd r1)) as H2.
  rewrite Hsame in H2. fold cpth r1 in H1. fold r2 in H2.
  destruct (engine_rel_trans cpth _ _ _ H1 H2)
    as (evs' & Htr & Hget & Hw & Hwe & _ & Hb & _).
  subst evs. rewrite (new_events_app _ _ _ Htr). done.
Qed.

Lemma identical_weights_share_engine_witness :
  let c := upload "weights.pt" "weights" in
  let r1 := process_inference sample_env [upload "a.png" "img"] (Some c) "cpu"
              false false ["out"] sample_clock empty_world in
  let r2 := process_inference sample_env [upload "b.png" "img"] (Some c) "cpu"
              true false ["out"] sample_clock_2 (snd r1) in
  writes (checkpoint_path_of sample_env c ["out"]) (new_events empty_world (snd r2)) ≤ 1
  ∧ ∀ k, builds k (new_events empty_world (snd r2)) ≤ 1.
Proof.
  intros c r1 r2.
  destruct (identical_weights_share_engine sample_env
              [upload "a.png" "img"] [upload "b.png" "img"] c c "cpu" "cpu"
              false true false false ["out"] sample_clock sample_clock_2 empty_world)
    as (_ & _ & Hw & _ & Hb); try reflexivity; try done.
Defined.

(** ** C7: file names of a run *)

Lemma length_append s1 s2 :
  String.length (s1 +:+ s2) = String.length s1 + String.length s2.
Proof. induction s1 as [|a s1 IH]; simpl; [done | by rewrite IH]. Qed.

Lemma append_inj_r s1 s2 t : s1 +:+ t = s2 +:+ t → s1 = s2.
Proof.
  revert s2. induction s1 as [|a s1 IH]; intros [|b s2] Heq; simpl in *.
  - done.
  - apply (f_equal String.length) in Heq. rewrite !length_append in Heq. simpl in Heq. lia.
  - apply (f_equal String.length) in Heq. rewrite !length_append in Heq. simpl in Heq. lia.
  - injection Heq as -> Heq. f_equal. by apply IH.
Qed.

(** The numbered candidates of [unique_filename] are pairwise distinct
    and differ from the unnumbered one. *)
Lemma candidate_inj base suffix (j k : nat) :
  base +:+ "-" +:+ pretty j +:+ suffix = base +:+ "-" +:+ pretty k +:+ suffix → j = k.
Proof.
  intros Heq. apply (inj (String.app base)) in Heq. injection Heq as Heq.
  change ("" +:+ ?x) with x in Heq. apply append_inj_r in Heq. by apply (inj pretty) in Heq.
Qed.

Lemma candidate_ne_plain base suffix (k : nat) :
  base +:+ suffix ≠ base +:+ "-" +:+ pretty k +:+ suffix.
Proof.
  intros Heq. apply (inj (String.app base)) in Heq.
  apply (f_equal String.length) in Heq. rewrite !length_append in Heq. simpl in Heq. lia.
Qed.

Lemma unique_loop_some base suffix (used : gset string) fuel :
  ∀ (X : gset string) cand counter,
    X ⊆ used → size X ≤ fuel →
    (cand ∈ used → cand ∈ X) →
    (∀ k, counter ≤ k → base +:+ "-" +:+ pretty k +:+ suffix ∈ used →
          base +:+ "-" +:+ pretty k +:+ suffix ∈ X) →
    (∀ k, counter ≤ k → cand ≠ base +:+ "-" +:+ pretty k +:+ suffix) →
    is_Some (unique_loop fuel base suffix used cand counter).
Proof.
  induction fuel as [|fuel IH]; intros X cand counter HX Hsz Hc Hk Hne; simpl;
    case_decide as Hin; try (by eexists).
  - apply Hc in Hin.
    assert (size X = 0) as Hz by lia. apply size_empty_iff in Hz.
    apply Hz in Hin. by apply not_elem_of_empty in Hin.
  - apply Hc in Hin.
    apply (IH (X ∖ {[cand]})).
    + intros x [Hx _]%elem_of_difference. by apply HX.
    + rewrite size_difference by (by apply singleton_subseteq_l).
      rewrite size_singleton.
      assert (size X ≠ 0).
      { apply size_non_empty_iff. intros Hz. apply Hz in Hin.
        by apply not_elem_of_empty in Hin. }
      lia.
    + intros Hu. apply elem_of_difference. split; [by apply Hk|].
      apply not_elem_of_singleton. intros Heq. by apply (Hne counter).
    + intros k Hle Hu. apply elem_of_difference. split; [apply Hk; [lia | done]|].
      apply not_elem_of_singleton. intros Heq. apply (Hne k); [lia | done].
    + intros k Hle Heq. apply candidate_inj in Heq. lia.
Qed.

(** The loop of [unique_filename] always finds a name within the
    iterations the model grants it. *)
Lemma unique_loop_terminates base suffix (used : gset string) :
  is_Some (unique_loop (S (size used)) base suffix used (base +:+ suffix) 1).
Proof.
  apply (unique_loop_some base suffix used (S (size used)) used); try done; [lia|].
  intros k _. apply candidate_ne_plain.
Qed.

Lemma unique_loop_fresh fuel base suffix used cand counter r :
  unique_loop fuel base suffix used cand counter = Some r → r ∉ used.
Proof.
  revert cand counter. induction fuel as [|fuel IH]; intros cand counter; simpl;
    case_decide; try done; try (by intros [= <-]). apply IH.
Qed.

(** [unique_filename] returns a name that was not used yet and records
    it as used. *)
Lemma unique_filename_fresh name used :
  (fst (unique_filename name used) ∉ used)
  ∧ snd (unique_filename name used) = {[fst (unique_filename name used)]} ∪ used.
Proof.
  unfold unique_filename.
  destruct (unique_loop_terminates (Path.stem (Path.name_of_str name))
              (Path.suffix (Path.name_of_str name)) used) as [r Hr].
  rewrite Hr. simpl. split; [|done]. by eapply unique_loop_fresh.
Qed.

(** The de-duplication itself works: the names given to the uploads of
    one run ([name] in the output entries) are pairwise distinct. *)
Section Names.
Context (E : Env).

Lemma process_upload_name pred dev re run_dir i u used w o used' w' :
  process_upload E pred dev re run_dir i u used w = (Ok (o, used'), w') →
  o_name o = fst (unique_filename (safe_filename (filename u)) used)
  ∧ used' = snd (unique_filename (safe_filename (filename u)) used).
Proof.
  unfold process_upload. destruct (unique_filename _ _) as [safe_name used0]. simpl.
  rewrite bind_unfold. destruct (write_file _ _ w) as [[[]|e] w1]; [|done].
  rewrite bind_unfold. destruct (read_image _ _ w1) as [[img|e] w2]; [|done].
  rewrite bind_unfold. destruct (predict_image _ _ _ _) as [g|]; [|done]. simpl.
  rewrite bind_unfold. destruct (write_file _ _ w2) as [[[]|e] w3]; [|done].
  rewrite bind_unfold. destruct (write_preview _ _ w3) as [[[]|e] w4]; [|done].
  destruct re; [|by intros [= <- <- _]].
  rewrite bind_unfold. destruct (run_render _ _ _ w4) as [[[]|e] w5]; [|done].
  munfold. by intros [= <- <- _].
Qed.

Lemma process_uploads_names pred dev re run_dir ups :
  ∀ i (used : gset string) outs0 w outs w',
    process_uploads E pred dev re run_dir i ups used outs0 w = (Ok outs, w') →
    NoDup (o_name <$> outs0) → (∀ o, o ∈ outs0 → o_name o ∈ used) →
    NoDup (o_name <$> outs).
Proof.
  induction ups as [|u ups IH]; intros i used outs0 w outs w'; simpl.
  - by intros [= <- _].
  - rewrite bind_unfold.
    destruct (process_upload _ _ _ _ _ _ _ _ w) as [[[o used']|e] w1] eqn:Hstep; [|done].
    apply process_upload_name in Hstep as [Hname Hused].
    destruct (unique_filename_fresh (safe_filename (filename u)) used) as [Hfresh Hset].
    rewrite <- Hname in Hfresh, Hset. rewrite <- Hused in Hset. clear Hname Hused.
    intros Hrest Hnd Hin. eapply IH; [exact Hrest | |].
    + rewrite fmap_app. apply NoDup_app. split; [done|]. split; [|apply NoDup_singleton].
      intros x Hx [= ->]%list_elem_of_singleton.
      apply list_elem_of_fmap in Hx as (o' & Heq & Ho'). apply Hfresh.
      rewrite Heq. by apply Hin.
    + intros o' [Ho' | ->%list_elem_of_singleton]%elem_of_app; rewrite Hset.
      * apply elem_of_union. right. by apply Hin.
      * apply elem_of_union. left. by apply elem_of_singleton.
Qed.

Lemma process_inference_names_distinct ups cp req rnd al root clk w res w' :
  process_inference E ups cp req rnd al root clk w = (Ok res, w') →
  NoDup (o_name <$> r_outputs res).
Proof.
  intros Hrun. destruct (decide (ups = [])) as [->|Hne]; [done|].
  rewrite (process_inference_steps E _ _ _ _ _ _ _ _ Hne) in Hrun.
  destruct (resolve_device E req) as [device|e]; [|done]. cbv zeta in Hrun.
  destruct (mkdir_p _ w) as [[[]|e] w1]; [|done].
  destruct (_ w1) as [[cpath|e] w2]; [|done].
  destruct (PredictorCache.get E cpath device al w2) as [[[pred u]|e] w3]; [|by destruct e].
  destruct (process_uploads _ _ _ _ _ _ _ _ _ w3) as [[outs|e] w4] eqn:Hups; [|done].
  destruct (write_file _ _ w4) as [[[]|e] w5]; [|done].
  destruct (create_bundle_zip _ _ w5) as [[[]|e] w6]; [|done].
  injection Hrun as <- <-. simpl.
  eapply process_uploads_names; [exact Hups | apply NoDup_nil_2 |].
  intros o Ho. by apply elem_of_nil in Ho.
Qed.

End Names.

(** Two uploads with the same name get the names [a.png] and
    [a-1.png]. *)
Lemma duplicate_names_are_numbered :
  let r := process_inference sample_env [upload "a.png" "img1"; upload "a.png" "img2"]
             None "cpu" false false ["out"] sample_clock empty_world in
  match fst r with
  | Ok res =>
      o_name <$> r_outputs res = ["a.png"; "a-1.png"]
      ∧ o_ply <$> r_outputs res = ["a.ply"; "a-1.ply"]
      ∧ o_preview <$> r_outputs res = ["a.preview.jpg"; "a-1.preview.jpg"]
  | Raise _ => False
  end.
Proof. vm_compute. done. Qed.

(** C7 fails on the code.  Two uploads [a.png] and [a.jpg] keep their
    distinct names, but the geometry and preview files are named after
    the stem alone: both entries point at [a.ply] and [a.preview.jpg],
    the second upload overwrites the files of the first, and the run
    directory holds one geometry file for two inputs. *)
Theorem same_stem_uploads_collide :
  let r := process_inference sample_env [upload "a.png" "img1"; upload "a.jpg" "img2"]
             None "cpu" false false ["out"] sample_clock empty_world in
  match fst r with
  | Ok res =>
      o_name <$> r_outputs res = ["a.png"; "a.jpg"]
      ∧ o_ply <$> r_outputs res = ["a.ply"; "a.ply"]
      ∧ o_preview <$> r_outputs res = ["a.preview.jpg"; "a.preview.jpg"]
  | Raise _ => False
  end
  ∧ writes ["out"; "20250102-030405-0a0b0c0d"; "a.ply"] (trace (snd r)) = 2
  ∧ fs (snd r) !! ["out"; "20250102-030405-0a0b0c0d"; "a.ply"]
    = Some (File (PlyFile (String.list_byte_of_string "img2"))).
Proof. vm_compute. done. Qed.

(** ** End-to-end examples of the download handler *)

(** A run made while the output root is [/R1] is still served from
    [/R1] after the root was changed to [/R2]; an unknown run id is
    looked up under the current root. *)
Lemma download_after_root_change :
  let '(_, st, w) :=
    predict_run sample_env [upload "a.png" "img"] None "cpu" false false
      sample_clock (OutputState.init ["R1"]) empty_world in
  let st' := OutputState.set_root ["R2"] st in
  download_file Path.normpath st' (fs w) "20250102-030405-0a0b0c0d" "a.ply" = Ok ["R1"; "20250102-030405-0a0b0c0d"; "a.ply"]
  ∧ download_file Path.normpath st' (fs w) "20250102-030405-0a0b0c0d" "bundle.zip"
    = Ok ["R1"; "20250102-030405-0a0b0c0d"; "bundle.zip"]
  ∧ download_file Path.normpath st' (fs w) "20250102-030500-a0b0c0d0" "a.ply"
    = Raise (HTTPException 404 "File not found.").
Proof. vm_compute. done. Qed.

(** Both artifacts of two uploads named [a.png] can be fetched; a file
    name that climbs out of the run directory is refused. *)
Lemma download_numbered_duplicates :
  let '(_, st, w) :=
    predict_run sample_env [upload "a.png" "img1"; upload "a.png" "img2"] None "cpu"
      false false sample_clock (OutputState.init ["out"]) empty_world in
  download_file Path.normpath st (fs w) "20250102-030405-0a0b0c0d" "a.ply" = Ok ["out"; "20250102-030405-0a0b0c0d"; "a.ply"]
  ∧ download_file Path.normpath st (fs w) "20250102-030405-0a0b0c0d" "a-1.ply" = Ok ["out"; "20250102-030405-0a0b0c0d"; "a-1.ply"]
  ∧ download_file Path.normpath st (fs w) "20250102-030405-0a0b0c0d" "../_checkpoints"
    = Raise (HTTPException 400 "Invalid path.")
  ∧ download_file Path.normpath st (fs w) ".." "20250102-030405-0a0b0c0d"
    = Raise (HTTPException 400 "Invalid path.").
Proof. vm_compute. done. Qed.
